(** * GenericCobolIDE: the COBOL highlighter and the editor session of app.py

    Part I embeds the program.

    - [Module Highlighter] is [CobolHighlighter]: the rule table built in
      [__init__] from the pattern sources, the regular-expression matcher the
      patterns are run with, the [globalMatch] iteration and the per-character
      format array written by [setFormat] in [highlightBlock].
    - [Module IDE] is [CobolIDE]: the handlers for new / open / save /
      save-as, the unsaved-changes prompt and [handle_compile_cobol], as
      functions on the state of the window; what the user, the file system
      and the compiler answer during a call is an argument of the handler.

    Parts II and III state and prove the properties of the two, claim by
    claim ([HighlighterFacts], [IDEFacts]).

    Text is a sequence of UTF-16 code units (the positions QRegularExpression
    reports); for the ASCII range a code unit is a byte. What the program
    takes from Qt, PCRE and Python's library is modelled after their
    documented behaviour: the pattern syntax and the backtracking matcher,
    [setFormat], the modified flag of the document, [os.path.join]. *)

From Stdlib Require Import NArith Ascii String List Bool Lia.
From stdpp Require Import base option list gmap strings.

Local Open Scope string_scope.
Local Open Scope list_scope.
Local Open Scope nat_scope.

(** * Part I: the program *)

Module Highlighter.

(** ** Characters and character classes *)

(** The code unit of an ASCII character. *)
Definition chr (a : ascii) : N := N_of_ascii a.

(** A unit of text is what Qt hands to [highlightBlock]: the code units of one
    block (one line) of the document. [text_of] reads one off an ASCII
    string. *)
Definition text_of (s : string) : list N := map chr (list_ascii_of_string s).

(** [\w] without the Unicode-properties option: ASCII letters, digits and the
    underscore. *)
Definition is_word (c : N) : bool :=
  ((48 <=? c) && (c <=? 57) || (65 <=? c) && (c <=? 90)
   || (97 <=? c) && (c <=? 122) || (c =? 95))%N.

(** [\s] without the Unicode-properties option: HT, LF, VT, FF, CR, space. *)
Definition is_space (c : N) : bool :=
  ((9 <=? c) && (c <=? 13) || (c =? 32))%N.

Definition LF : N := 10%N.

(** The single-character classes that occur in the patterns of the rule
    table: a literal, the dot (any character but the line feed) and [\s]. *)
Inductive cclass : Type :=
  | Lit (c : N)
  | Dot
  | Space.

Definition cmatch (k : cclass) (c : N) : bool :=
  match k with
  | Lit d => (c =? d)%N
  | Dot => negb (c =? LF)%N
  | Space => is_space c
  end.

(** A pattern is a sequence of items: one character of a class, a class under
    a greedy ([*]) or lazy ([*?]) star, the word boundary [\b] and the
    start-of-subject anchor [^]. *)
Inductive item : Type :=
  | One (k : cclass)
  | Star (greedy : bool) (k : cclass)
  | WordB
  | Bol.

(** ** Pattern sources *)

(** Characters with a special meaning outside a character class. *)
Definition is_meta (a : ascii) : bool :=
  existsb (Ascii.eqb a)
    (list_ascii_of_string "\^$.[]|()?*+{}").

Definition is_alnum (a : ascii) : bool :=
  let c := chr a in
  ((48 <=? c) && (c <=? 57) || (65 <=? c) && (c <=? 90)
   || (97 <=? c) && (c <=? 122))%N.

(** Tokens of a pattern source. *)
Inductive token : Type :=
  | TAtom (k : cclass)
  | TWordB
  | TBol
  | TStar
  | TQuest.

Definition escape_token (e : ascii) : option token :=
  if Ascii.eqb e "b" then Some TWordB
  else if Ascii.eqb e "s" then Some (TAtom Space)
  else if is_alnum e then None
  else Some (TAtom (Lit (chr e))).

Definition plain_token (a : ascii) : option token :=
  if Ascii.eqb a "^" then Some TBol
  else if Ascii.eqb a "." then Some (TAtom Dot)
  else if Ascii.eqb a "*" then Some TStar
  else if Ascii.eqb a "?" then Some TQuest
  else if is_meta a then None
  else Some (TAtom (Lit (chr a))).

Fixpoint lex (p : string) : option (list token) :=
  match p with
  | EmptyString => Some []
  | String a p1 =>
      if Ascii.eqb a "\" then
        match p1 with
        | EmptyString => None
        | String e p2 =>
            match escape_token e, lex p2 with
            | Some t, Some ts => Some (t :: ts)
            | _, _ => None
            end
        end
      else
        match plain_token a, lex p1 with
        | Some t, Some ts => Some (t :: ts)
        | _, _ => None
        end
  end.

Fixpoint items_of (ts : list token) : option (list item) :=
  match ts with
  | [] => Some []
  | TAtom k :: TStar :: TQuest :: ts' => cons (Star false k) <$> items_of ts'
  | TAtom k :: TStar :: ts' => cons (Star true k) <$> items_of ts'
  | TAtom k :: ts' => cons (One k) <$> items_of ts'
  | TWordB :: ts' => cons WordB <$> items_of ts'
  | TBol :: ts' => cons Bol <$> items_of ts'
  | TStar :: _ | TQuest :: _ => None
  end.

(** Reading of a pattern source, for the fragment of the syntax the rule table
    uses; [None] is an invalid (or unsupported) pattern. *)
Definition parse (p : string) : option (list item) :=
  lex p ≫= items_of.

(** [QRegularExpression(p)]: a pattern object; an invalid pattern is kept as
    such and never matches. *)
Definition QRegularExpression (p : string) : option (list item) := parse p.

(** ** Matching *)

Definition is_word_opt (c : option N) : bool :=
  match c with
  | Some c => is_word c
  | None => false
  end.

(** [\b] holds between [prev] and [next] when exactly one of them is a word
    character; the subject boundary counts as a non-word character. *)
Definition at_word_boundary (prev next : option N) : bool :=
  xorb (is_word_opt prev) (is_word_opt next).

(** Backtracking match of the items [r] at the current position: [prev] is
    the character just before it ([None] at the start of the subject), [rest]
    the subject from it on. The result is the length of the first match in
    the order the backtracking matcher explores: a greedy star takes as many
    characters as possible and gives them back one at a time, a lazy star
    takes as few as possible and extends one at a time. *)
Fixpoint match_here (r : list item) : option N → list N → option nat :=
  match r with
  | [] => λ _ _, Some 0
  | it :: r' =>
      let k := match_here r' in
      match it with
      | One cls => λ prev rest,
          match rest with
          | c :: rest' => if cmatch cls c then S <$> k (Some c) rest' else None
          | [] => None
          end
      | Star true cls =>
          fix star (prev : option N) (rest : list N) : option nat :=
            match rest with
            | c :: rest' =>
                if cmatch cls c then
                  match star (Some c) rest' with
                  | Some n => Some (S n)
                  | None => k prev rest
                  end
                else k prev rest
            | [] => k prev rest
            end
      | Star false cls =>
          fix star (prev : option N) (rest : list N) : option nat :=
            match k prev rest with
            | Some n => Some n
            | None =>
                match rest with
                | c :: rest' => if cmatch cls c then S <$> star (Some c) rest' else None
                | [] => None
                end
            end
      | WordB => λ prev rest,
          if at_word_boundary prev (head rest) then k prev rest else None
      | Bol => λ prev rest,
          match prev with
          | None => k prev rest
          | Some _ => None
          end
      end
  end.

(** [globalMatch]: the matches of a pattern over the whole subject, leftmost
    first, each search resuming where the previous match ended. [pos] is the
    current offset, [skip] the number of characters still inside the previous
    match. (After an empty match Qt retries at the same offset for a non-empty
    one before advancing; no pattern of the rule table matches the empty
    string, see [rules_match_nonempty], so the scan simply advances.) *)
Fixpoint scan (r : list item) (prev : option N) (rest : list N)
    (pos skip : nat) : list (nat * nat) :=
  match skip with
  | S skip' =>
      match rest with
      | c :: rest' => scan r (Some c) rest' (S pos) skip'
      | [] => []
      end
  | 0 =>
      match match_here r prev rest with
      | Some len =>
          (pos, len) ::
          match rest with
          | c :: rest' => scan r (Some c) rest' (S pos) (pred len)
          | [] => []
          end
      | None =>
          match rest with
          | c :: rest' => scan r (Some c) rest' (S pos) 0
          | [] => []
          end
      end
  end.

(** The list of [(capturedStart, capturedLength)] of the match iterator. *)
Definition globalMatch (p : option (list item)) (t : list N) : list (nat * nat) :=
  match p with
  | Some r => scan r None t 0 0
  | None => []
  end.

(** ** The rule table of [CobolHighlighter.__init__] *)

Inductive QColor : Type := blue | magenta | green.

Inductive Weight : Type := Normal | Bold.

Record QTextCharFormat : Type := {
  foreground : option QColor;
  fontWeight : Weight
}.

Definition keywords : list string := [
  "ACCEPT"; "ADD"; "CALL"; "CANCEL"; "COMPUTE"; "CONTINUE";
  "DELETE"; "DISPLAY"; "DIVIDE"; "ELSE"; "END-CALL"; "END-IF";
  "EVALUATE"; "GO"; "IF"; "INITIALIZE"; "INSPECT"; "MOVE";
  "MULTIPLY"; "OPEN"; "PERFORM"; "READ"; "REPLACE"; "RETURN";
  "REWRITE"; "SEARCH"; "STOP"; "STRING"; "SUBTRACT"; "UNSTRING";
  "WRITE"
].

(** The three formats stand for the three categories of a character:
    keyword (blue, bold), string literal (magenta) and comment (green). *)
Definition keyword_format : QTextCharFormat :=
  {| foreground := Some blue; fontWeight := Bold |}.

Definition string_format : QTextCharFormat :=
  {| foreground := Some magenta; fontWeight := Normal |}.

Definition comment_format : QTextCharFormat :=
  {| foreground := Some green; fontWeight := Normal |}.

(** [r'\b{}\b'.format(word)] *)
Definition keyword_source (word : string) : string := "\b" +:+ word +:+ "\b".

Definition dquote : string := String (ascii_of_nat 34) EmptyString.
Definition squote : string := "'".

Definition string_patterns : list (option (list item)) :=
  [QRegularExpression (dquote +:+ ".*?" +:+ dquote);
   QRegularExpression (squote +:+ ".*?" +:+ squote)].

Definition comment_source : string := "^\s*\*>.*".

Definition keyword_rules : list (option (list item) * QTextCharFormat) :=
  map (λ word, (QRegularExpression (keyword_source word), keyword_format)) keywords.

Definition string_rules : list (option (list item) * QTextCharFormat) :=
  map (λ pattern, (pattern, string_format)) string_patterns.

Definition comment_pattern : option (list item) := QRegularExpression comment_source.

Definition highlighting_rules : list (option (list item) * QTextCharFormat) :=
  (keyword_rules ++ string_rules) ++ [(comment_pattern, comment_format)].

(** ** [highlightBlock] *)

(** [QSyntaxHighlighter.setFormat(start, count, format)]: overwrite the
    entries [start .. min (start + count) n - 1] of the block's format array;
    a start outside the block is ignored. *)
Definition setFormat (start count : nat) (fmt : QTextCharFormat)
    (formats : list (option QTextCharFormat)) : list (option QTextCharFormat) :=
  if decide (start < length formats) then
    let stop := Nat.min (start + count) (length formats) in
    foldl (λ fs i, <[i := Some fmt]> fs) formats (seq start (stop - start))
  else formats.

(** The inner [while] loop: every match of one rule is painted. *)
Definition apply_rule (t : list N) (formats : list (option QTextCharFormat))
    (rule : option (list item) * QTextCharFormat) : list (option QTextCharFormat) :=
  foldl (λ fs m, setFormat m.1 m.2 rule.2 fs) formats (globalMatch rule.1 t).

(** The format array of a block after [highlightBlock]: entry [i] is the
    format of character [i], [None] where no rule painted. (The block state,
    set to 0 at the end, plays no part in the formats.) *)
Definition highlightBlock (t : list N) : list (option QTextCharFormat) :=
  foldl (apply_rule t) (replicate (length t) None) highlighting_rules.

(** ** Vocabulary of the statements on the highlighter *)

(** A match [(start, length)] covers offset [i]. *)
Definition covers (m : nat * nat) (i : nat) : bool :=
  (m.1 <=? i) && (i <? m.1 + m.2).

(** Some match of pattern [p] over [t] covers offset [i]: the rule paints
    character [i]. *)
Definition painted (p : option (list item)) (t : list N) (i : nat) : bool :=
  existsb (λ m, covers m i) (globalMatch p t).

(** The pattern [r] matches [l] characters at offset [s] of [t]. *)
Definition matches_at (r : list item) (t : list N) (s l : nat) : Prop :=
  ∃ pre rest, t = pre ++ rest ∧ length pre = s ∧ match_here r (last pre) rest = Some l.

(** The items of a run of literal characters. *)
Definition lits (w : list N) : list item := map (λ c, One (Lit c)) w.

(** The items of [\bword\b]. *)
Definition kw_regex (w : list N) : list item := WordB :: lits w ++ [WordB].

(** The character before the position reached after reading [w] from a
    position whose previous character is [prev]. *)
Definition prev_after (prev : option N) (w : list N) : option N :=
  match last w with
  | Some c => Some c
  | None => prev
  end.

(** A word shaped like the keywords: it starts and ends with a word
    character (so it is not empty). *)
Definition kw_shape (w : list N) : bool :=
  is_word_opt (head w) && is_word_opt (last w).

(** [w] stands at offset [p] of [t] as a whole word: the character before it
    and the character after it are not word characters (or are missing). *)
Definition whole_word_at (w t : list N) (p : nat) : Prop :=
  ∃ pre tail, t = pre ++ w ++ tail ∧ length pre = p
              ∧ is_word_opt (last pre) = false ∧ is_word_opt (head tail) = false.

(** The items of [q.*?q] for a quote character [q]. *)
Definition str_regex (q : N) : list item := [One (Lit q); Star false Dot; One (Lit q)].

Definition star_c : N := 42%N.
Definition gt_c : N := 62%N.

(** The comment marker. *)
Definition marker : list N := [star_c; gt_c].

(** The items of the comment pattern. *)
Definition comment_regex : list item :=
  [Bol; Star true Space; One (Lit star_c); One (Lit gt_c); Star true Dot].

(** Number of characters before the first line feed. *)
Fixpoint run_length (rest : list N) : nat :=
  match rest with
  | c :: rest' => if cmatch Dot c then S (run_length rest') else 0
  | [] => 0
  end.

Definition dq : N := 34%N.
Definition sq : N := 39%N.

(** The format a character ends with after the rules [rules] were applied in
    order over an entry that held [init]. *)
Definition last_painter (t : list N) (i : nat)
    (rules : list (option (list item) * QTextCharFormat))
    (init : option QTextCharFormat) : option QTextCharFormat :=
  foldl (λ acc rule, if painted rule.1 t i then Some rule.2 else acc) init rules.

(** No whole-word occurrence of [w] can start inside another one: at every
    shift [d] inside the word, either the character before the shifted start
    is a word character or the shifted start does not carry the first
    character of [w]. *)
Definition no_self_overlap (w : list N) : bool :=
  forallb (λ d, is_word_opt (w !! (d - 1)) || negb (bool_decide (w !! d = w !! 0)))
    (seq 1 (length w - 1)).

(** The character lies inside a match of one of the string-literal rules. *)
Definition inside_string_literal (t : list N) (i : nat) : Prop :=
  ∃ rule, rule ∈ string_rules ∧ painted rule.1 t i = true.

(** The text [MOVE "IF" TO X]. *)
Definition move_if_to_x : list N :=
  text_of "MOVE " ++ dq :: text_of "IF" ++ dq :: text_of " TO X".

(** The quote character each of the [string_patterns] is built around. *)
Definition string_quotes : list N := [dq; sq].

(** A double quote followed by [abc]: a literal that is never closed. *)
Definition unterminated : list N := dq :: text_of "abc".

(** [w] stands at offset [p] of [t] next to a word character: it is part of a
    longer run of word characters. *)
Definition embedded_at (w t : list N) (p : nat) : Prop :=
  ∃ pre tail, t = pre ++ w ++ tail ∧ length pre = p
              ∧ (is_word_opt (last pre) = true ∨ is_word_opt (head tail) = true).

(** [w] stands at offset [p] of [t]. *)
Definition occurs_at (w t : list N) (p : nat) : Prop :=
  ∃ pre tail, t = pre ++ w ++ tail ∧ length pre = p.


(** Some rule of [rules] has a match over character [i]. *)
Definition any_painted (rules : list (option (list item) * QTextCharFormat))
    (t : list N) (i : nat) : bool :=
  existsb (λ rule, painted rule.1 t i) rules.

(** Number of occurrences of [q] in [l]. *)
Fixpoint occurrences (q : N) (l : list N) : nat :=
  match l with
  | [] => 0
  | c :: l' => if (c =? q)%N then S (occurrences q l') else occurrences q l'
  end.

(** An apostrophe inside a word, then a quoted letter. *)
Definition apostrophe_line : list N := text_of "it's and 'x'".

End Highlighter.

Module IDE.

(** ** The platform *)

(** What the handlers use of Python's [os] and [sys] modules; [os.path.join],
    [os.path.basename] and [os.pathsep] differ between platforms. *)
Record os_module : Type := {
  pathsep : string;
  path_join : string → list string → string;
  basename : string → string
}.

Definition startswith (s pre : string) : bool := String.prefix pre s.

Definition endswith (s suf : string) : bool :=
  let n := String.length s in
  let k := String.length suf in
  (k <=? n) && String.eqb (String.substring (n - k) k s) suf.

(** [posixpath.join(a, *p)]. *)
Definition posix_join (a : string) (p : list string) : string :=
  foldl (λ path b,
           if startswith b "/" then b
           else if String.eqb path "" || endswith path "/" then path +:+ b
           else path +:+ "/" +:+ b)
        a p.

(** [posixpath.basename(p)]: what follows the last slash. *)
Fixpoint posix_basename (p : string) : string :=
  match p with
  | EmptyString => EmptyString
  | String c p' =>
      if Ascii.eqb c "/" || existsb (Ascii.eqb "/") (list_ascii_of_string p')
      then posix_basename p'
      else p
  end.

Definition posix : os_module :=
  {| pathsep := ":"; path_join := posix_join; basename := posix_basename |}.

(** ** The widgets *)

(** The editor widget with its document: the text and the document's
    modified flag. *)
Record QPlainTextEdit : Type := {
  toPlainText : string;
  isModified : bool
}.

(** [setPlainText] and [clear] replace the whole content; Qt resets the
    document's modified flag with it and drops the undo history. The text is
    kept here as it was given. Qt's [toPlainText] gives a no-break space
    back as a space, and a Unicode line or paragraph separator as a line
    feed: for a content holding such characters the text returned is not
    the text set. The properties of the handlers therefore say nothing of
    the text of a file just read, other than for a content that
    [toPlainText] returned itself. *)
Definition setPlainText (content : string) (e : QPlainTextEdit) : QPlainTextEdit :=
  {| toPlainText := content; isModified := false |}.

Definition clear (e : QPlainTextEdit) : QPlainTextEdit :=
  {| toPlainText := ""; isModified := false |}.

(** [document().setModified(m)] *)
Definition setModified (m : bool) (e : QPlainTextEdit) : QPlainTextEdit :=
  {| toPlainText := toPlainText e; isModified := m |}.

(** The modified flag is kept by Qt's document, no line of the program sets
    it: the document is modified when its place in the undo history is not
    the one where the flag was last cleared. An edit made by the user in
    the widget (typing, deleting, pasting, an undo or redo that ends
    elsewhere than in that place) changes the content and leaves the
    document flagged as modified. *)
Definition edited (content : string) (e : QPlainTextEdit) : QPlainTextEdit :=
  {| toPlainText := content; isModified := true |}.

(** The user undoes or redoes edits until the document is back in the place
    where the flag was last cleared, with the text [clean] it had there: Qt
    clears the flag. *)
Definition undone (clean : string) (e : QPlainTextEdit) : QPlainTextEdit :=
  {| toPlainText := clean; isModified := false |}.

Inductive StandardButton : Type := Save | Discard | Cancel.

Inductive dialog : Type :=
  | warning (title text : string)
  | critical (title text : string)
  | information (title text : string).

(** The outcome of [subprocess.run]. *)
Inductive run_outcome : Type :=
  | Completed (returncode : Z) (stdout stderr : string)
  | FileNotFoundError (e : string)
  | OtherException (e : string).

(** What a handler does to the world outside the window, in order: a message
    box shown; a file written in full; a file opened for writing, which
    creates or empties it, whose write did not complete; a call of
    [subprocess.run] with its command and environment. *)
Inductive effect : Type :=
  | MessageBox (d : dialog)
  | Written (path content : string)
  | Truncated (path : string)
  | Run (argv : list string) (env : gmap string string).

(** The window: the attributes of [CobolIDE] and the trace of its effects. *)
Record CobolIDE : Type := {
  current_file : option string;
  editor : QPlainTextEdit;
  windowTitle : string;
  status_bar : string;
  effects : list effect
}.

(** What the world answers during one handler call: the button pressed in the
    unsaved-changes box, the names picked in the file dialogs (empty when the
    dialog is dismissed), the result of reading or writing the file ([str(e)]
    of the exception on failure), whether a write that raises had opened the
    file before (the exception comes from [f.write] or from closing the
    file, not from [open]), the outcome of the compiler run, and the process
    environment and platform name. *)
Record answers : Type := {
  reply : StandardButton;
  getSaveFileName : string;
  getOpenFileName : string;
  read_result : string + string;
  write_result : option string;
  write_opened : bool;
  run_result : run_outcome;
  environ : gmap string string;
  platform : string
}.

Definition nl : string := String (ascii_of_nat 10) EmptyString.

(** Truth value of a string, and of an optional string. *)
Definition truthy (s : string) : bool := negb (String.eqb s "").

Definition truthy_opt (o : option string) : bool :=
  match o with
  | Some s => truthy s
  | None => false
  end.

Definition set_current_file (f : option string) (s : CobolIDE) : CobolIDE :=
  {| current_file := f; editor := editor s; windowTitle := windowTitle s;
     status_bar := status_bar s; effects := effects s |}.

Definition set_editor (e : QPlainTextEdit) (s : CobolIDE) : CobolIDE :=
  {| current_file := current_file s; editor := e; windowTitle := windowTitle s;
     status_bar := status_bar s; effects := effects s |}.

Definition setWindowTitle (title : string) (s : CobolIDE) : CobolIDE :=
  {| current_file := current_file s; editor := editor s; windowTitle := title;
     status_bar := status_bar s; effects := effects s |}.

Definition showMessage (msg : string) (s : CobolIDE) : CobolIDE :=
  {| current_file := current_file s; editor := editor s; windowTitle := windowTitle s;
     status_bar := msg; effects := effects s |}.

Definition emit (e : effect) (s : CobolIDE) : CobolIDE :=
  {| current_file := current_file s; editor := editor s; windowTitle := windowTitle s;
     status_bar := status_bar s; effects := effects s ++ [e] |}.

Definition show (d : dialog) (s : CobolIDE) : CobolIDE := emit (MessageBox d) s.

(** The window after [__init__]. *)
Definition init : CobolIDE :=
  {| current_file := None;
     editor := {| toPlainText := ""; isModified := false |};
     windowTitle := "GNU Cobol IDE";
     status_bar := "Ready";
     effects := [] |}.

Section Handlers.
Variable os : os_module.

(** Whether the current document has unsaved changes. *)
Definition _document_is_modified (s : CobolIDE) : bool := isModified (editor s).

(** The title follows the currently open file, if any. *)
Definition _update_window_title (s : CobolIDE) : CobolIDE :=
  let base_title := "GNU Cobol IDE" in
  match current_file s with
  | Some f =>
      if truthy f then setWindowTitle (base_title +:+ " - " +:+ basename os f) s
      else setWindowTitle (base_title +:+ " - Untitled") s
  | None => setWindowTitle (base_title +:+ " - Untitled") s
  end.

(** Open and read the file at [file_path], then set it as [current_file];
    any exception raised on the way is shown in an error box. *)
Definition _open_file (a : answers) (file_path : string) (s : CobolIDE) : CobolIDE :=
  match read_result a with
  | inl content =>
      let s := set_editor (setPlainText content (editor s)) s in
      let s := set_current_file (Some file_path) s in
      let s := _update_window_title s in
      let s := showMessage ("File opened: " +:+ file_path) s in
      set_editor (setModified false (editor s)) s
  | inr e => show (critical "Error" ("Could not open file:" +:+ nl +:+ e)) s
  end.

(** Write the editor contents to [file_path], then update [current_file];
    any exception raised on the way is shown in an error box. The file is
    opened in mode [w]: when the exception comes after [open], the file is
    left created or emptied, with none or part of the text in it. *)
Definition _save_to_path (a : answers) (file_path : string) (s : CobolIDE) : CobolIDE :=
  match write_result a with
  | None =>
      let s := emit (Written file_path (toPlainText (editor s))) s in
      let s := set_current_file (Some file_path) s in
      let s := _update_window_title s in
      let s := set_editor (setModified false (editor s)) s in
      showMessage ("File saved: " +:+ file_path) s
  | Some e =>
      let s := if write_opened a then emit (Truncated file_path) s else s in
      show (critical "Error" ("Could not save file:" +:+ nl +:+ e)) s
  end.

(** Ask for a file name and save the current content under it. *)
Definition handle_save_file_as (a : answers) (s : CobolIDE) : CobolIDE :=
  let file_path := getSaveFileName a in
  if truthy file_path then _save_to_path a file_path s else s.

(** Save the current file; if none is open, ask for a file name. *)
Definition handle_save_file (a : answers) (s : CobolIDE) : CobolIDE :=
  if negb (truthy_opt (current_file s)) then handle_save_file_as a s
  else _save_to_path a (default "" (current_file s)) s.

(** The box asking whether to Save, Discard or Cancel: [Some true] ([True])
    after Save, [Some false] ([False]) for Discard and [None] for Cancel. *)
Definition _prompt_save_discard_cancel (a : answers) (message : string)
    (s : CobolIDE) : option bool * CobolIDE :=
  let s := show (warning "Unsaved Changes" message) s in
  match reply a with
  | Save => (Some true, handle_save_file a s)
  | Discard => (Some false, s)
  | Cancel => (None, s)
  end.

(** Python's [not r] for [r] one of [True], [False], [None]. *)
Definition py_not (r : option bool) : bool :=
  match r with
  | Some true => false
  | Some false | None => true
  end.

(** The tail of [handle_new_file]: clear the editor, drop the file name. *)
Definition new_file (s : CobolIDE) : CobolIDE :=
  let s := set_editor (clear (editor s)) s in
  let s := set_current_file None s in
  let s := _update_window_title s in
  showMessage "New file created" s.

(** Create a new file, after the prompt when the document has unsaved
    changes. *)
Definition handle_new_file (a : answers) (s : CobolIDE) : CobolIDE :=
  if _document_is_modified s then
    let '(r, s) :=
      _prompt_save_discard_cancel a "Do you want to save before creating a new file?" s in
    if py_not r then s else new_file s
  else new_file s.

(** The tail of [handle_open_file]: ask for a file and open it. *)
Definition open_dialog (a : answers) (s : CobolIDE) : CobolIDE :=
  let file_path := getOpenFileName a in
  if truthy file_path then _open_file a file_path s else s.

(** Open an existing file, after the prompt when the document has unsaved
    changes. *)
Definition handle_open_file (a : answers) (s : CobolIDE) : CobolIDE :=
  if _document_is_modified s then
    let '(r, s) :=
      _prompt_save_discard_cancel a "Do you want to save before opening a new file?" s in
    if py_not r then s else open_dialog a s
  else open_dialog a s.

(** [closeEvent]: the flag tells whether the event was accepted. *)
Definition closeEvent (a : answers) (s : CobolIDE) : bool * CobolIDE :=
  if _document_is_modified s then
    let '(r, s) :=
      _prompt_save_discard_cancel a "Do you want to save your changes before exiting?" s in
    match r with
    | None => (false, s)
    | Some _ => (true, s)
    end
  else (true, s).

(** The toolchain root: [GNUBASE] from the environment when it is set to a
    non-empty value, else the default of the platform; [None] on a platform
    that is not recognised. *)
Definition resolve_gnubase (a : answers) : option string :=
  let gnubase := environ a !! "GNUBASE" in
  if negb (truthy_opt gnubase) then
    if startswith (platform a) "win" then Some "C:\GnuCOBOL"
    else if startswith (platform a) "darwin" || startswith (platform a) "linux"
         then Some "/usr/local"
         else None
  else gnubase.

(** The environment of the compiler run: a copy of [os.environ] with
    [GNUBASE], [COBPATH] and [PATH] updated. *)
Definition compile_env (a : answers) (gnubase : string) : gmap string string :=
  let env := environ a in
  let env := <["GNUBASE" := gnubase]> env in
  let env :=
    <["COBPATH" := path_join os gnubase ["lib"; "gnucobol"] +:+ pathsep os +:+
                   path_join os gnubase ["lib"; "cobc"] +:+ pathsep os +:+
                   default "" (env !! "COBPATH")]> env in
  <["PATH" := path_join os gnubase ["bin"] +:+ pathsep os +:+
              default "" (env !! "PATH")]> env.

(** The name of the compiler, with [.exe] on Windows. *)
Definition cobc_executable (a : answers) : string :=
  if startswith (platform a) "win" then "cobc" +:+ ".exe" else "cobc".

Definition compile_command (a : answers) (gnubase exe_path source : string) : list string :=
  [path_join os gnubase ["bin"; cobc_executable a]; "-x"; "-o"; exe_path; source].

(** Compile the current file with GnuCOBOL ([cobc]), after asking for the
    path of the executable to produce. *)
Definition handle_compile_cobol (a : answers) (s : CobolIDE) : CobolIDE :=
  if negb (truthy_opt (current_file s)) then
    show (warning "Warning" "Please save the file before compiling.") s
  else
    let exe_path := getSaveFileName a in
    if negb (truthy exe_path) then s
    else
      match resolve_gnubase a with
      | None =>
          show (critical "Configuration Error"
                  "Unsupported operating system or GNUBASE not set.") s
      | Some gnubase =>
          let env := compile_env a gnubase in
          let command :=
            compile_command a gnubase exe_path (default "" (current_file s)) in
          let s := emit (Run command env) s in
          match run_result a with
          | Completed returncode _ stderr =>
              if (returncode =? 0)%Z then
                let s := showMessage "Compilation successful!" s in
                show (information "Success" "Compilation successful!") s
              else
                let s := showMessage "Compilation failed" s in
                show (critical "Error" ("Compilation failed:" +:+ nl +:+ stderr)) s
          | FileNotFoundError _ =>
              show (critical "GnuCOBOL Not Found"
                      ("Could not find the 'cobc' compiler." +:+ nl +:+
                       "Make sure GnuCOBOL is installed and in your system PATH, or specify its full path.")) s
          | OtherException e =>
              let s := showMessage "Error during compilation" s in
              show (critical "Error" ("Could not compile file:" +:+ nl +:+ e)) s
          end
      end.

End Handlers.

(** ** The actions of the menu *)

(** The actions made in [_create_actions]. *)
Inductive action : Type :=
  | action_new
  | action_open
  | action_save
  | action_save_as
  | action_compile
  | action_exit.

(** The slot each action's [triggered] signal is connected to, run on the
    window; the flag tells whether the window stays open. [action_exit] is
    connected to [close], which delivers a close event to [closeEvent] and
    closes the window when the event is accepted. *)
Definition triggered (os : os_module) (act : action) (a : answers)
    (s : CobolIDE) : bool * CobolIDE :=
  match act with
  | action_new => (true, handle_new_file os a s)
  | action_open => (true, handle_open_file os a s)
  | action_save => (true, handle_save_file os a s)
  | action_save_as => (true, handle_save_file_as os a s)
  | action_compile => (true, handle_compile_cobol os a s)
  | action_exit => let '(accepted, s) := closeEvent os a s in (negb accepted, s)
  end.

(** The user changes the text in the editor. *)
Definition user_edit (content : string) (s : CobolIDE) : CobolIDE :=
  set_editor (edited content (editor s)) s.

(** The user undoes or redoes back to the last unmodified state of the
    document, whose text was [clean]. *)
Definition user_undo (clean : string) (s : CobolIDE) : CobolIDE :=
  set_editor (undone clean (editor s)) s.

(** What happens in the window: the user edits the text, or undoes (or
    redoes) back to the last unmodified state of the document, or triggers
    an action (with what the world answers while its handler runs). *)
Inductive event : Type :=
  | Edit (content : string)
  | Undo
  | Triggered (act : action) (a : answers).

(** The text of the last unmodified state of the document: the present text
    when the document is not flagged as modified, else the text [clean] of
    the state in which the flag was last clear. (The handlers clear the flag
    and never set it, so that a state flagged after a handler was flagged
    before it, with the same unmodified state behind it.) *)
Definition clean_text (clean : string) (s : CobolIDE) : string :=
  if isModified (editor s) then clean else toPlainText (editor s).

(** The window after a sequence of events, [clean] being the text of the
    last unmodified state of the document; nothing happens after the window
    was closed. An undo is taken to be possible whenever it is asked for. *)
Fixpoint run_from (os : os_module) (clean : string) (events : list event)
    (s : CobolIDE) : CobolIDE :=
  match events with
  | [] => s
  | Edit content :: events' =>
      run_from os (clean_text clean s) events' (user_edit content s)
  | Undo :: events' =>
      run_from os (clean_text clean s) events' (user_undo (clean_text clean s) s)
  | Triggered act a :: events' =>
      let '(open, s') := triggered os act a s in
      if open then run_from os (clean_text clean s) events' s' else s'
  end.

(** The window after a sequence of events, from a window whose document has
    its present text as last unmodified state. *)
Definition run (os : os_module) (events : list event) (s : CobolIDE) : CobolIDE :=
  run_from os (toPlainText (editor s)) events s.

(** ** Vocabulary of the statements on the handlers *)

(** The title [_update_window_title] gives a window whose file is [f]. *)
Definition title_of (os : os_module) (f : option string) : string :=
  match f with
  | Some f =>
      if truthy f then "GNU Cobol IDE - " +:+ basename os f
      else "GNU Cobol IDE - Untitled"
  | None => "GNU Cobol IDE - Untitled"
  end.

(** A file is written, or opened for writing, under a non-empty name; the
    compiler is run with the command line [cobc -x -o exe source], [exe] and
    [source] non-empty. *)
Definition well_formed (e : effect) : Prop :=
  match e with
  | MessageBox _ => True
  | Written path _ => truthy path = true
  | Truncated path => truthy path = true
  | Run argv _ =>
      ∃ cobc exe source, argv = [cobc; "-x"; "-o"; exe; source]
                         ∧ truthy exe = true ∧ truthy source = true
  end.

(** What every handler keeps true of the window once it holds: the file name
    is absent or non-empty; an unmodified document without a file name is
    empty; the title is the one of the file name, or still the initial one
    while there has been no file name; the effects are well formed. *)
Definition consistent (os : os_module) (s : CobolIDE) : Prop :=
  (current_file s = None ∨ truthy_opt (current_file s) = true)
  ∧ (isModified (editor s) = false → current_file s = None → toPlainText (editor s) = "")
  ∧ (windowTitle s = title_of os (current_file s)
     ∨ (windowTitle s = "GNU Cobol IDE" ∧ current_file s = None))
  ∧ Forall well_formed (effects s).

(** With no file name, the last unmodified state of the document is the
    empty one. *)
Definition clean_untitled (clean : string) (s : CobolIDE) : Prop :=
  current_file s = None → clean_text clean s = "".

(** From [s] to [s'], a window left without a file name has its editor as
    before, having had no file name before either, or has it emptied. *)
Definition untitled_step (s s' : CobolIDE) : Prop :=
  current_file s' = None →
  (editor s' = editor s ∧ current_file s = None)
  ∨ editor s' = {| toPlainText := ""; isModified := false |}.

(** The box of the unsaved-changes prompt with the message of the caller. *)
Definition unsaved_box (message : string) : dialog := warning "Unsaved Changes" message.

Definition save_error_box (e : string) : dialog :=
  critical "Error" ("Could not save file:" +:+ nl +:+ e).

(** The effects of a save on the file [path] whose write raises: the file
    left created or emptied when the exception came after opening it, then
    the error box. *)
Definition failed_write (a : answers) (path e : string) : list effect :=
  (if write_opened a then [Truncated path] else []) ++ [MessageBox (save_error_box e)].

Definition success_box : dialog := information "Success" "Compilation successful!".

Definition not_found_box : dialog :=
  critical "GnuCOBOL Not Found"
    ("Could not find the 'cobc' compiler." +:+ nl +:+
     "Make sure GnuCOBOL is installed and in your system PATH, or specify its full path.").

Definition configuration_error_box : dialog :=
  critical "Configuration Error" "Unsupported operating system or GNUBASE not set.".

Definition no_source_box : dialog :=
  warning "Warning" "Please save the file before compiling.".

(** Sample sessions and answers. *)
Definition saved_session : CobolIDE :=
  {| current_file := Some "/tmp/a.cbl";
     editor := {| toPlainText := "MOVE 1 TO X."; isModified := false |};
     windowTitle := "GNU Cobol IDE - a.cbl";
     status_bar := "Ready";
     effects := [] |}.

Definition linux_answers (env : gmap string string) (r : run_outcome) : answers :=
  {| reply := Cancel;
     getSaveFileName := "/tmp/a.out";
     getOpenFileName := "";
     read_result := inl "";
     write_result := None;
     write_opened := true;
     run_result := r;
     environ := env;
     platform := "linux" |}.

Definition dirty_session : CobolIDE :=
  set_editor (edited "MOVE 2 TO X." (editor saved_session)) saved_session.

(** Answers on Linux with the given button, names picked in the save and
    open dialogs, and results of reading and writing; a write that raises
    does so after the file was opened. *)
Definition sample_answers (button : StandardButton) (save_name open_name : string)
    (rd : string + string) (wr : option string) : answers :=
  {| reply := button;
     getSaveFileName := save_name;
     getOpenFileName := open_name;
     read_result := rd;
     write_result := wr;
     write_opened := true;
     run_result := Completed 0 "" "";
     environ := ∅;
     platform := "linux" |}.

(** A new document with text typed in and no file name. *)
Definition untitled_session : CobolIDE := user_edit "STOP RUN." init.

End IDE.

(** * Part II: the highlighter *)

Module HighlighterFacts.
Import Highlighter.

(** ** Equations of the matcher *)

Section MatcherEquations.
Variables (cls : cclass) (r : list item).

Lemma match_one prev rest :
  match_here (One cls :: r) prev rest =
    match rest with
    | c :: rest' => if cmatch cls c then S <$> match_here r (Some c) rest' else None
    | [] => None
    end.
Proof. reflexivity. Qed.

Lemma match_greedy_nil prev :
  match_here (Star true cls :: r) prev [] = match_here r prev [].
Proof. reflexivity. Qed.

Lemma match_greedy_cons prev c rest :
  match_here (Star true cls :: r) prev (c :: rest) =
    if cmatch cls c then
      match match_here (Star true cls :: r) (Some c) rest with
      | Some n => Some (S n)
      | None => match_here r prev (c :: rest)
      end
    else match_here r prev (c :: rest).
Proof. reflexivity. Qed.

Lemma match_lazy prev rest :
  match_here (Star false cls :: r) prev rest =
    match match_here r prev rest with
    | Some n => Some n
    | None =>
        match rest with
        | c :: rest' =>
            if cmatch cls c then S <$> match_here (Star false cls :: r) (Some c) rest'
            else None
        | [] => None
        end
    end.
Proof. destruct rest; reflexivity. Qed.

Lemma match_wordb prev rest :
  match_here (WordB :: r) prev rest =
    if at_word_boundary prev (head rest) then match_here r prev rest else None.
Proof. reflexivity. Qed.

Lemma match_bol prev rest :
  match_here (Bol :: r) prev rest =
    match prev with None => match_here r prev rest | Some _ => None end.
Proof. reflexivity. Qed.
End MatcherEquations.

Lemma match_nil prev rest : match_here [] prev rest = Some 0.
Proof. reflexivity. Qed.

Arguments match_here : simpl never.

(** A match never runs past the end of the subject. *)
Lemma match_here_bound r : ∀ prev rest n,
  match_here r prev rest = Some n → n ≤ length rest.
Proof.
  induction r as [|it r IH]; intros prev rest n.
  - simpl. intros [= <-]. lia.
  - destruct it as [cls|[] cls| |].
    + rewrite match_one. destruct rest as [|c rest]; [done|].
      destruct (cmatch cls c); [|done].
      destruct (match_here r (Some c) rest) as [m|] eqn:E; [|done].
      intros [= <-]. apply IH in E. simpl. lia.
    + revert prev n. induction rest as [|c rest IHrest]; intros prev n.
      * rewrite match_greedy_nil. apply IH.
      * rewrite match_greedy_cons. destruct (cmatch cls c); [|apply IH].
        destruct (match_here (Star true cls :: r) (Some c) rest) as [m|] eqn:E.
        -- intros [= <-]. apply IHrest in E. simpl. lia.
        -- apply IH.
    + revert prev n. induction rest as [|c rest IHrest]; intros prev n;
        rewrite match_lazy.
      * destruct (match_here r prev []) as [m|] eqn:E; [|done].
        intros [= <-]. by apply IH in E.
      * destruct (match_here r prev (c :: rest)) as [m|] eqn:E.
        -- intros [= <-]. by apply IH in E.
        -- destruct (cmatch cls c); [|done].
           destruct (match_here (Star false cls :: r) (Some c) rest) as [m|] eqn:E'; [|done].
           intros [= <-]. apply IHrest in E'. simpl. lia.
    + rewrite match_wordb. destruct (at_word_boundary _ _); [apply IH|done].
    + rewrite match_bol. destruct prev; [done|apply IH].
Qed.

(** ** The match iterator *)

Lemma last_snoc_char (pre : list N) c : last (pre ++ [c]) = Some c.
Proof. apply last_snoc. Qed.

(** Every reported match is a match of the pattern at its offset, and lies at
    or after the offset the search resumed from. *)
Lemma scan_sound r : ∀ rest pre skip s l,
  (s, l) ∈ scan r (last pre) rest (length pre) skip →
  matches_at r (pre ++ rest) s l ∧ length pre + skip ≤ s.
Proof.
  induction rest as [|c rest IH]; intros pre skip s l.
  - destruct skip; simpl; [|by intros ?%elem_of_nil].
    destruct (match_here r (last pre) []) as [n|] eqn:E; [|by intros ?%elem_of_nil].
    intros [= -> ->]%list_elem_of_singleton.
    split; [|lia]. by exists pre, [].
  - assert (Hstep : ∀ k, (s, l) ∈ scan r (Some c) rest (S (length pre)) k →
              matches_at r (pre ++ c :: rest) s l ∧ S (length pre) + k ≤ s).
    { intros k Hin. specialize (IH (pre ++ [c]) k s l).
      rewrite last_snoc_char, length_app, Nat.add_1_r, <- app_assoc in IH.
      apply IH in Hin as [Hm Hle]. split; [done|lia]. }
    destruct skip; simpl.
    + destruct (match_here r (last pre) (c :: rest)) as [n|] eqn:E.
      * intros [[= -> ->]|Hin]%elem_of_cons.
        -- split; [|lia]. by exists pre, (c :: rest).
        -- apply Hstep in Hin. destruct Hin. split; [done|lia].
      * intros Hin. apply Hstep in Hin. destruct Hin. split; [done|lia].
    + intros Hin. apply Hstep in Hin. destruct Hin. split; [done|lia].
Qed.

Lemma globalMatch_sound r t s l :
  (s, l) ∈ globalMatch (Some r) t → matches_at r t s l.
Proof.
  intros Hin. by apply (scan_sound r t [] 0 s l) in Hin as [? _].
Qed.

(** Every reported match lies inside the text, so [setFormat] never has to
    clip it. *)
Lemma globalMatch_in_text r t s l :
  (s, l) ∈ globalMatch (Some r) t → s + l ≤ length t.
Proof.
  intros (pre & rest & -> & <- & Hm%match_here_bound)%globalMatch_sound.
  rewrite length_app. lia.
Qed.

(** A match of the pattern is reported by the iterator when no match that
    starts earlier runs across its offset. *)
Lemma scan_complete r : ∀ rest pre skip pre' rest' l,
  pre ++ rest = pre' ++ rest' →
  length pre + skip ≤ length pre' →
  match_here r (last pre') rest' = Some l →
  (∀ s1 l1, matches_at r (pre ++ rest) s1 l1 → s1 < length pre' → s1 + l1 ≤ length pre') →
  (length pre', l) ∈ scan r (last pre) rest (length pre) skip.
Proof.
  induction rest as [|c rest IH]; intros pre skip pre' rest' l Heq Hle Hm Hfree.
  - assert (length pre = length pre' + length rest') as Hlen
      by (rewrite <- length_app, <- Heq, length_app; simpl; lia).
    assert (skip = 0) as -> by lia.
    destruct rest' as [|? ?]; [|simpl in Hlen; lia].
    rewrite !app_nil_r in Heq. subst pre'. simpl. rewrite Hm. apply list_elem_of_here.
  - assert (Hstep : ∀ k, S (length pre) + k ≤ length pre' →
              (length pre', l) ∈ scan r (Some c) rest (S (length pre)) k).
    { intros k Hk. specialize (IH (pre ++ [c]) k pre' rest' l).
      rewrite last_snoc_char, length_app, Nat.add_1_r, <- app_assoc in IH.
      apply IH; [done|lia|done|done]. }
    destruct (decide (length pre = length pre')) as [Hp|Hp].
    + assert (skip = 0) as -> by lia.
      apply app_inj_1 in Heq as [-> <-]; [|done].
      simpl. rewrite Hm. apply list_elem_of_here.
    + destruct skip; simpl.
      * destruct (match_here r (last pre) (c :: rest)) as [n|] eqn:E.
        -- apply list_elem_of_further, Hstep.
           assert (length pre + n ≤ length pre'); [|lia].
           apply Hfree; [|lia]. by exists pre, (c :: rest).
        -- apply Hstep. lia.
      * apply Hstep. lia.
Qed.

Lemma globalMatch_complete r t s l :
  matches_at r t s l →
  (∀ s1 l1, matches_at r t s1 l1 → s1 < s → s1 + l1 ≤ s) →
  (s, l) ∈ globalMatch (Some r) t.
Proof.
  intros (pre & rest & -> & <- & Hm) Hfree.
  apply (scan_complete r (pre ++ rest) [] 0 pre rest l); simpl; [done|lia|done|done].
Qed.

Lemma painted_iff p t i :
  painted p t i = true ↔ ∃ s l, (s, l) ∈ globalMatch p t ∧ s ≤ i < s + l.
Proof.
  unfold painted, covers. rewrite existsb_exists. split.
  - intros ([s l] & Hin%list_elem_of_In & [H1%Nat.leb_le H2%Nat.ltb_lt]%andb_prop).
    exists s, l. simpl in *. split; [done|lia].
  - intros (s & l & Hin & Hle & Hlt). exists (s, l). split; [by apply list_elem_of_In|].
    simpl. apply andb_true_iff. split; [by apply Nat.leb_le|by apply Nat.ltb_lt].
Qed.

(** ** Literal runs and the keyword patterns *)

Lemma match_lits w r : ∀ prev rest n,
  match_here (lits w ++ r) prev rest = Some n ↔
  ∃ tail m, rest = w ++ tail ∧ match_here r (prev_after prev w) tail = Some m
            ∧ n = length w + m.
Proof.
  induction w as [|c w IH]; intros prev rest n.
  - simpl. split.
    + intros H. by exists rest, n.
    + by intros (tail & m & -> & H & ->).
  - change (lits (c :: w) ++ r) with (One (Lit c) :: (lits w ++ r)).
    rewrite match_one. split.
    + destruct rest as [|c' rest]; [done|]. simpl.
      destruct (N.eqb_spec c' c) as [->|]; [|done].
      destruct (match_here (lits w ++ r) (Some c) rest) as [k|] eqn:E; [|done].
      intros [= <-]. apply IH in E as (tail & m & -> & Hm & ->).
      exists tail, m. split; [done|]. split; [|done].
      unfold prev_after in *. rewrite last_cons. by destruct (last w).
    + intros (tail & m & -> & Hm & ->). simpl. rewrite N.eqb_refl.
      assert (match_here (lits w ++ r) (Some c) (w ++ tail) = Some (length w + m)) as ->; [|done].
      apply IH. exists tail, m. split; [done|]. split; [|done].
      unfold prev_after in *. rewrite last_cons in Hm. by destruct (last w).
Qed.

Lemma head_app_ne (w tail : list N) : is_word_opt (head w) = true → head (w ++ tail) = head w.
Proof. by destruct w. Qed.

Lemma match_kw w prev rest n :
  kw_shape w = true →
  match_here (kw_regex w) prev rest = Some n ↔
  is_word_opt prev = false ∧
  ∃ tail, rest = w ++ tail ∧ is_word_opt (head tail) = false ∧ n = length w.
Proof.
  intros [Hh Hl]%andb_prop. unfold kw_regex. rewrite match_wordb.
  unfold at_word_boundary. split.
  - destruct (xorb _ _) eqn:Hx; [|done].
    intros (tail & m & -> & Hm & ->)%match_lits.
    rewrite head_app_ne, Hh in Hx by done.
    unfold prev_after in Hm. destruct (last w) as [c|] eqn:El; [|done].
    rewrite match_wordb in Hm. unfold at_word_boundary in Hm. simpl in Hl, Hm. rewrite Hl in Hm.
    destruct (is_word_opt (head tail)) eqn:Ht; simpl in Hm; [done|].
    injection Hm as <-. split; [by destruct (is_word_opt prev)|].
    exists tail. split; [done|]. split; [done|lia].
  - intros (Hp & tail & -> & Ht & ->).
    rewrite head_app_ne, Hh, Hp by done. simpl.
    apply match_lits. exists tail, 0. split; [done|]. split; [|lia].
    unfold prev_after. destruct (last w) as [c|] eqn:El; [|done].
    rewrite match_wordb. unfold at_word_boundary. simpl in Hl. simpl. by rewrite Hl, Ht.
Qed.

(** The keyword pattern matches exactly at the whole-word occurrences. *)
Lemma kw_matches_at w t p l :
  kw_shape w = true →
  matches_at (kw_regex w) t p l ↔ whole_word_at w t p ∧ l = length w.
Proof.
  intros Hs. unfold matches_at, whole_word_at. split.
  - intros (pre & rest & -> & <- & (Hp & tail & -> & Ht & ->)%match_kw); [|done].
    split; [|done]. by exists pre, tail.
  - intros [(pre & tail & -> & <- & Hp & Ht) ->]. exists pre, (w ++ tail).
    split; [done|]. split; [done|]. apply match_kw; [done|]. split; [done|]. by exists tail.
Qed.

(** ** The string-literal patterns *)

Lemma match_lazy_until_1 q : ∀ rest prev n,
  match_here [Star false Dot; One (Lit q)] prev rest = Some n →
  ∃ body tail, rest = body ++ q :: tail ∧ (q ∉ body) ∧ (LF ∉ body) ∧ n = S (length body).
Proof.
  induction rest as [|c rest IH]; intros prev n; rewrite match_lazy, match_one; [done|].
  simpl. destruct (N.eqb_spec c q) as [->|Hcq]; simpl.
  - intros [= <-]. exists [], rest. split_and!; try done; apply not_elem_of_nil.
  - destruct (N.eqb_spec c LF) as [->|Hlf]; simpl; [done|].
    destruct (match_here [Star false Dot; One (Lit q)] (Some c) rest) as [m|] eqn:E;
      simpl; [|done].
    apply IH in E as (body & tail & -> & Hq & Hl & ->). intros [= <-].
    exists (c :: body), tail. rewrite !not_elem_of_cons. by split_and!.
Qed.

Lemma match_lazy_until_2 q tail : ∀ body prev,
  q ∉ body → LF ∉ body →
  match_here [Star false Dot; One (Lit q)] prev (body ++ q :: tail) = Some (S (length body)).
Proof.
  induction body as [|c body IH]; intros prev Hq Hl; rewrite match_lazy, match_one; simpl.
  - by rewrite N.eqb_refl.
  - apply not_elem_of_cons in Hq as [Hcq Hq]. apply not_elem_of_cons in Hl as [Hcl Hl].
    destruct (N.eqb_spec c q) as [->|_]; [done|]. simpl.
    destruct (N.eqb_spec c LF) as [->|_]; [done|]. simpl.
    by rewrite IH.
Qed.

(** A string pattern matches at a quote that has a closing quote of the same
    kind later on, with no line feed in between, and the match ends at the
    first such quote. *)
Lemma match_str q prev rest n :
  match_here (str_regex q) prev rest = Some n ↔
  ∃ body tail, rest = q :: body ++ q :: tail ∧ (q ∉ body) ∧ (LF ∉ body)
               ∧ n = length body + 2.
Proof.
  unfold str_regex. rewrite match_one. split.
  - destruct rest as [|c rest]; [done|]. simpl.
    destruct (N.eqb_spec c q) as [->|]; [|done].
    destruct (match_here _ (Some q) rest) as [m|] eqn:E; [|done].
    apply match_lazy_until_1 in E as (body & tail & -> & Hq & Hl & ->).
    intros [= <-]. exists body, tail. repeat split; [done..|lia].
  - intros (body & tail & -> & Hq & Hl & ->). simpl. rewrite N.eqb_refl.
    rewrite match_lazy_until_2 by done. simpl. f_equal. lia.
Qed.

(** ** The comment pattern *)

Lemma run_length_no_LF rest : LF ∉ rest → run_length rest = length rest.
Proof.
  induction rest as [|c rest IH]; [done|].
  intros [Hc Hr]%not_elem_of_cons. simpl.
  destruct (N.eqb_spec c LF) as [->|_]; [done|]. simpl. by rewrite IH.
Qed.

Lemma match_greedy_dot : ∀ rest prev,
  match_here [Star true Dot] prev rest = Some (run_length rest).
Proof.
  induction rest as [|c rest IH]; intros prev; [done|].
  rewrite match_greedy_cons. simpl. destruct (negb _); [|done]. by rewrite IH.
Qed.

Lemma match_marker prev rest n :
  match_here [One (Lit star_c); One (Lit gt_c); Star true Dot] prev rest = Some n ↔
  ∃ tail, rest = marker ++ tail ∧ n = 2 + run_length tail.
Proof.
  rewrite match_one. split.
  - destruct rest as [|c rest]; [done|]. simpl.
    destruct (N.eqb_spec c star_c) as [->|]; [|done]. rewrite match_one.
    destruct rest as [|c rest]; [done|]. simpl.
    destruct (N.eqb_spec c gt_c) as [->|]; [|done].
    rewrite match_greedy_dot. simpl. intros [= <-]. by exists rest.
  - intros (tail & -> & ->). simpl. rewrite match_one. simpl.
    by rewrite match_greedy_dot.
Qed.

Lemma match_space_marker_1 : ∀ rest prev n,
  match_here (Star true Space :: [One (Lit star_c); One (Lit gt_c); Star true Dot])
    prev rest = Some n →
  ∃ ws tail, rest = ws ++ marker ++ tail ∧ Forall (λ c, is_space c = true) ws
             ∧ n = length ws + 2 + run_length tail.
Proof.
  induction rest as [|c rest IH]; intros prev n.
  - rewrite match_greedy_nil. by intros (tail & ? & _)%match_marker.
  - rewrite match_greedy_cons.
    assert (Hk : match_here [One (Lit star_c); One (Lit gt_c); Star true Dot] prev (c :: rest)
                 = Some n →
            ∃ ws tail, c :: rest = ws ++ marker ++ tail
                       ∧ Forall (λ c, is_space c = true) ws
                       ∧ n = length ws + 2 + run_length tail).
    { intros (tail & -> & ->)%match_marker. by exists [], tail. }
    simpl cmatch. destruct (is_space c) eqn:Hc; [|done].
    destruct (match_here _ (Some c) rest) as [m|] eqn:E; [|done].
    apply IH in E as (ws & tail & -> & Hws & ->). intros [= <-].
    exists (c :: ws), tail. split; [done|]. split; [by constructor|]. simpl. lia.
Qed.

Lemma match_space_marker_2 tail : ∀ ws prev,
  Forall (λ c, is_space c = true) ws →
  match_here (Star true Space :: [One (Lit star_c); One (Lit gt_c); Star true Dot])
    prev (ws ++ marker ++ tail) = Some (length ws + 2 + run_length tail).
Proof.
  induction ws as [|c ws IH]; intros prev Hws.
  - simpl app. rewrite match_greedy_cons. simpl cmatch. simpl is_space. cbv iota.
    apply match_marker. by exists tail.
  - inversion_clear Hws as [|? ? Hc Hws']. simpl app. rewrite match_greedy_cons.
    simpl cmatch. rewrite Hc. by rewrite IH.
Qed.

(** The comment pattern matches only at the start of the text, when the
    marker follows a (possibly empty) run of white space; the match then runs
    to the first line feed after the marker, or to the end. *)
Lemma match_comment prev rest n :
  match_here comment_regex prev rest = Some n ↔
  prev = None ∧
  ∃ ws tail, rest = ws ++ marker ++ tail ∧ Forall (λ c, is_space c = true) ws
             ∧ n = length ws + 2 + run_length tail.
Proof.
  unfold comment_regex. rewrite match_bol. split.
  - destruct prev; [done|]. intros H%match_space_marker_1. by split.
  - intros [-> (ws & tail & -> & Hws & ->)]. by apply match_space_marker_2.
Qed.

(** ** The rule table, read *)

Lemma keyword_rules_parsed :
  keyword_rules = map (λ W, (Some (kw_regex (text_of W)), keyword_format)) keywords.
Proof. reflexivity. Qed.

Lemma string_rules_parsed :
  string_rules = [(Some (str_regex dq), string_format); (Some (str_regex sq), string_format)].
Proof. reflexivity. Qed.

Lemma comment_pattern_parsed : comment_pattern = Some comment_regex.
Proof. reflexivity. Qed.

Lemma keywords_shape : Forall (λ W, kw_shape (text_of W) = true) keywords.
Proof. repeat constructor. Qed.

Lemma keyword_shape W : W ∈ keywords → kw_shape (text_of W) = true.
Proof. intros H. by apply (proj1 (Forall_forall _ _) keywords_shape). Qed.

(** ** The format array *)

Lemma foldl_insert_length {A} (x : A) : ∀ (js : list nat) (fs : list A),
  length (foldl (λ fs i, <[i := x]> fs) fs js) = length fs.
Proof.
  induction js as [|j js IH]; intros fs; simpl; [done|].
  by rewrite IH, length_insert.
Qed.

Lemma foldl_insert_lookup {A} (x : A) : ∀ (js : list nat) (fs : list A) i,
  i < length fs →
  foldl (λ fs i, <[i := x]> fs) fs js !! i = if bool_decide (i ∈ js) then Some x else fs !! i.
Proof.
  induction js as [|j js IH]; intros fs i Hi; simpl; [done|].
  rewrite IH by (by rewrite length_insert).
  destruct (decide (i = j)) as [->|Hne].
  - rewrite list_lookup_insert_eq by done.
    rewrite (bool_decide_eq_true_2 (j ∈ j :: js)) by apply list_elem_of_here.
    by destruct (bool_decide _).
  - rewrite list_lookup_insert_ne by done.
    destruct (bool_decide (i ∈ js)) eqn:E.
    + apply bool_decide_eq_true_1 in E.
      by rewrite bool_decide_eq_true_2 by by apply list_elem_of_further.
    + apply bool_decide_eq_false_1 in E.
      rewrite bool_decide_eq_false_2; [done|]. by intros [?|?]%elem_of_cons.
Qed.

Lemma setFormat_length s c f fs : length (setFormat s c f fs) = length fs.
Proof. unfold setFormat. case_decide; [|done]. apply foldl_insert_length. Qed.

(** [setFormat] overwrites the covered entries and leaves the others. *)
Lemma setFormat_lookup s c f fs i :
  i < length fs →
  setFormat s c f fs !! i = if covers (s, c) i then Some (Some f) else fs !! i.
Proof.
  intros Hi. unfold setFormat, covers. simpl.
  destruct (Nat.leb_spec s i) as [Hsi|Hsi]; destruct (Nat.ltb_spec i (s + c)) as [Hic|Hic];
    simpl; (case_decide; [rewrite foldl_insert_lookup by done|]); try done; try lia.
  - rewrite bool_decide_eq_true_2; [done|]. apply elem_of_seq. lia.
  - rewrite bool_decide_eq_false_2; [done|]. rewrite elem_of_seq. lia.
  - rewrite bool_decide_eq_false_2; [done|]. rewrite elem_of_seq. lia.
Qed.

Lemma paint_matches_length f : ∀ ms fs,
  length (foldl (λ fs (m : nat * nat), setFormat m.1 m.2 f fs) fs ms) = length fs.
Proof.
  induction ms as [|m ms IH]; intros fs; simpl; [done|].
  by rewrite IH, setFormat_length.
Qed.

Lemma paint_matches_lookup f i : ∀ ms fs,
  i < length fs →
  foldl (λ fs (m : nat * nat), setFormat m.1 m.2 f fs) fs ms !! i =
    if existsb (λ m, covers m i) ms then Some (Some f) else fs !! i.
Proof.
  induction ms as [|[s c] ms IH]; intros fs Hi; simpl; [done|].
  rewrite IH by (by rewrite setFormat_length).
  rewrite setFormat_lookup by done.
  destruct (covers (s, c) i); simpl; by destruct (existsb _ ms).
Qed.

Lemma apply_rule_length t fs rule : length (apply_rule t fs rule) = length fs.
Proof. apply paint_matches_length. Qed.

(** One rule overwrites the characters its matches cover. *)
Lemma apply_rule_lookup t fs rule i :
  i < length fs →
  apply_rule t fs rule !! i =
    if painted rule.1 t i then Some (Some rule.2) else fs !! i.
Proof. apply paint_matches_lookup. Qed.

Lemma apply_rules_length t : ∀ rules fs,
  length (foldl (apply_rule t) fs rules) = length fs.
Proof.
  induction rules as [|rule rules IH]; intros fs; simpl; [done|].
  by rewrite IH, apply_rule_length.
Qed.

Lemma apply_rules_lookup t i : ∀ rules fs init,
  fs !! i = Some init →
  foldl (apply_rule t) fs rules !! i = Some (last_painter t i rules init).
Proof.
  induction rules as [|rule rules IH]; intros fs init Hi; simpl; [done|].
  apply IH. rewrite apply_rule_lookup by (by eapply lookup_lt_Some).
  by destruct (painted _ _ _).
Qed.

Lemma highlightBlock_length t : length (highlightBlock t) = length t.
Proof. unfold highlightBlock. by rewrite apply_rules_length, length_replicate. Qed.

Lemma highlightBlock_lookup t i :
  i < length t →
  highlightBlock t !! i = Some (last_painter t i highlighting_rules None).
Proof.
  intros Hi. apply apply_rules_lookup. by apply lookup_replicate_2.
Qed.

Lemma last_painter_app t i rules1 rules2 init :
  last_painter t i (rules1 ++ rules2) init =
    last_painter t i rules2 (last_painter t i rules1 init).
Proof. apply foldl_app. Qed.

Lemma last_painter_unpainted t i : ∀ rules init,
  (∀ rule, rule ∈ rules → painted rule.1 t i = false) →
  last_painter t i rules init = init.
Proof.
  induction rules as [|rule rules IH]; intros init Hn; simpl; [done|].
  rewrite (Hn rule) by apply list_elem_of_here.
  apply IH. intros r Hr. by apply Hn, list_elem_of_further.
Qed.

(** The last rule of the table with a match over the character decides. *)
Lemma last_painter_last t i rules1 rule rules2 init :
  painted rule.1 t i = true →
  (∀ rule', rule' ∈ rules2 → painted rule'.1 t i = false) →
  last_painter t i (rules1 ++ rule :: rules2) init = Some rule.2.
Proof.
  intros Hp Hn. rewrite last_painter_app. simpl. rewrite Hp.
  by apply last_painter_unpainted.
Qed.

(** A character ends with a format only if a rule carrying that format has a
    match over it. *)
Lemma last_painter_Some t i f : ∀ rules init,
  last_painter t i rules init = Some f →
  init = Some f ∨ ∃ rule, rule ∈ rules ∧ rule.2 = f ∧ painted rule.1 t i = true.
Proof.
  induction rules as [|rule rules IH]; intros init; simpl; [by left|].
  intros [H|(r & Hr & Hf & Hp)]%IH.
  - destruct (painted rule.1 t i) eqn:E; [|by left].
    right. exists rule. split; [apply list_elem_of_here|]. split; [congruence|done].
  - right. exists r. split; [by apply list_elem_of_further|done].
Qed.

(** ** Occurrences, by position *)

Lemma occ_lookup (pre w tail : list N) j :
  j < length w → (pre ++ w ++ tail) !! (length pre + j) = w !! j.
Proof.
  intros Hj. rewrite lookup_app_r by lia.
  replace (length pre + j - length pre) with j by lia. by apply lookup_app_l.
Qed.

Lemma occ_prev (pre rest : list N) :
  last pre = match length pre with 0 => None | S k => (pre ++ rest) !! k end.
Proof.
  rewrite last_lookup. destruct pre as [|c pre]; [done|].
  change (length (c :: pre)) with (S (length pre)). cbv beta iota.
  change (Init.Nat.pred (S (length pre))) with (length pre).
  symmetry. apply lookup_app_l. simpl. lia.
Qed.


(** ** Occurrences of a keyword do not overlap *)

Lemma keywords_no_self_overlap :
  Forall (λ W, no_self_overlap (text_of W) = true) keywords.
Proof. repeat constructor. Qed.

Lemma whole_word_apart w t p p' :
  no_self_overlap w = true →
  whole_word_at w t p → whole_word_at w t p' → p < p' → p + length w ≤ p'.
Proof.
  intros Hno (pre & tail & -> & <- & _ & _) (pre' & tail' & Heq & <- & Hprev & _) Hlt.
  destruct (decide (length pre + length w ≤ length pre')) as [|Hin]; [done|exfalso].
  set (d := length pre' - length pre).
  assert (1 ≤ d < length w) as Hd by (unfold d; lia).
  unfold no_self_overlap in Hno. rewrite forallb_forall in Hno.
  specialize (Hno d). rewrite <- list_elem_of_In, elem_of_seq in Hno.
  apply orb_prop in Hno as [Hw|Hne]; [| |lia].
  - rewrite (occ_prev pre' (w ++ tail')), <- Heq in Hprev.
    destruct (length pre') as [|k] eqn:Ek; [lia|].
    replace k with (length pre + (d - 1)) in Hprev by (unfold d; lia).
    rewrite occ_lookup in Hprev by lia. congruence.
  - apply negb_true_iff, bool_decide_eq_false_1 in Hne. apply Hne.
    rewrite <- (occ_lookup pre w tail d) by lia.
    replace (length pre + d) with (length pre' + 0) by (unfold d; lia).
    rewrite Heq. apply occ_lookup. lia.
Qed.

Lemma keyword_regex W :
  W ∈ keywords → QRegularExpression (keyword_source W) = Some (kw_regex (text_of W)).
Proof. revert W. apply Forall_forall. repeat constructor. Qed.

(** The pattern of a keyword reports every whole-word occurrence of it. *)
Lemma keyword_reported W t p :
  W ∈ keywords → whole_word_at (text_of W) t p →
  (p, length (text_of W)) ∈ globalMatch (QRegularExpression (keyword_source W)) t.
Proof.
  intros HW Hocc. rewrite keyword_regex by done.
  pose proof (keyword_shape W HW) as Hs.
  apply globalMatch_complete.
  - by apply kw_matches_at.
  - intros s1 l1 [H1 ->]%kw_matches_at Hlt; [|done].
    eapply whole_word_apart; [|done..].
    by apply (proj1 (Forall_forall _ _) keywords_no_self_overlap).
Qed.

(** Every match of a keyword's pattern is a whole-word occurrence of it. *)
Lemma keyword_match_whole_word W t s l :
  W ∈ keywords →
  (s, l) ∈ globalMatch (QRegularExpression (keyword_source W)) t →
  whole_word_at (text_of W) t s ∧ l = length (text_of W).
Proof.
  intros HW. rewrite keyword_regex by done.
  intros Hm%globalMatch_sound. by apply kw_matches_at in Hm; [|apply keyword_shape].
Qed.

Lemma keyword_painted W t p i :
  W ∈ keywords → whole_word_at (text_of W) t p →
  p ≤ i < p + length (text_of W) →
  painted (QRegularExpression (keyword_source W)) t i = true.
Proof.
  intros HW Hocc Hi. apply painted_iff.
  exists p, (length (text_of W)). split; [by apply keyword_reported|done].
Qed.

(** ** Matches of the string and comment rules *)

Lemma string_match q t s l :
  (s, l) ∈ globalMatch (Some (str_regex q)) t →
  ∃ pre body tail, t = pre ++ q :: body ++ q :: tail ∧ length pre = s
                   ∧ (q ∉ body) ∧ (LF ∉ body) ∧ l = length body + 2.
Proof.
  intros (pre & rest & -> & <- & Hm)%globalMatch_sound.
  apply match_str in Hm as (body & tail & -> & Hq & Hl & ->).
  by exists pre, body, tail.
Qed.

Lemma comment_match t s l :
  (s, l) ∈ globalMatch comment_pattern t →
  s = 0 ∧ ∃ ws tail, t = ws ++ marker ++ tail ∧ Forall (λ c, is_space c = true) ws
                     ∧ l = length ws + 2 + run_length tail.
Proof.
  rewrite comment_pattern_parsed.
  intros (pre & rest & -> & <- & Hm)%globalMatch_sound.
  apply match_comment in Hm as [Hpre (ws & tail & -> & Hws & ->)].
  apply last_None in Hpre as ->. split; [done|]. by exists ws, tail.
Qed.

Lemma comment_reported ws tail :
  Forall (λ c, is_space c = true) ws →
  (0, length ws + 2 + run_length tail) ∈ globalMatch comment_pattern (ws ++ marker ++ tail).
Proof.
  intros Hws. rewrite comment_pattern_parsed. apply globalMatch_complete; [|lia].
  exists [], (ws ++ marker ++ tail). split; [done|]. split; [done|].
  apply match_comment. split; [done|]. by exists ws, tail.
Qed.

(** ** Where the formats of the array come from *)

Lemma elem_of_highlighting_rules rule :
  rule ∈ highlighting_rules ↔
  (∃ W, W ∈ keywords ∧ rule = (QRegularExpression (keyword_source W), keyword_format))
  ∨ rule = (Some (str_regex dq), string_format)
  ∨ rule = (Some (str_regex sq), string_format)
  ∨ rule = (comment_pattern, comment_format).
Proof.
  unfold highlighting_rules. rewrite !elem_of_app, string_rules_parsed.
  unfold keyword_rules. rewrite list_elem_of_fmap, !elem_of_cons, !elem_of_nil.
  split.
  - intros [[(W & -> & HW)|[?|[?|[]]]]|[?|[]]]; eauto 6.
  - intros [(W & HW & ->)|[?|[?|?]]]; eauto 8.
Qed.

Lemma kw_shape_nonempty w : kw_shape w = true → 0 < length w.
Proof. destruct w; [done|simpl; lia]. Qed.

(** No rule of the table has an empty match. *)
Lemma rules_match_nonempty rule t s l :
  rule ∈ highlighting_rules → (s, l) ∈ globalMatch rule.1 t → 0 < l.
Proof.
  intros [(W & HW & ->) | [-> | [-> | ->]]]%elem_of_highlighting_rules Hin; simpl in Hin.
  - apply keyword_match_whole_word in Hin as [_ ->]; [|done].
    by apply kw_shape_nonempty, keyword_shape.
  - apply string_match in Hin as (? & ? & ? & _ & _ & _ & _ & ->). lia.
  - apply string_match in Hin as (? & ? & ? & _ & _ & _ & _ & ->). lia.
  - apply comment_match in Hin as (_ & ? & ? & _ & _ & ->). lia.
Qed.

Lemma format_origin t i f :
  highlightBlock t !! i = Some (Some f) →
  ∃ rule, rule ∈ highlighting_rules ∧ rule.2 = f ∧ painted rule.1 t i = true.
Proof.
  intros H. assert (i < length t) as Hi.
  { rewrite <- highlightBlock_length. by eapply lookup_lt_Some. }
  rewrite highlightBlock_lookup in H by done.
  assert (last_painter t i highlighting_rules None = Some f) as Hl by congruence.
  by apply last_painter_Some in Hl as [?|?].
Qed.

(** A character carries the keyword format only inside a whole-word
    occurrence of a keyword of the vocabulary, spelled as declared. *)
Lemma keyword_format_origin t i :
  highlightBlock t !! i = Some (Some keyword_format) →
  ∃ W p, W ∈ keywords ∧ whole_word_at (text_of W) t p
         ∧ p ≤ i < p + length (text_of W).
Proof.
  intros (rule & Hr & Hf & Hp)%format_origin.
  apply elem_of_highlighting_rules in Hr as [(W & HW & ->) | [-> | [-> | ->]]]; [|done..].
  apply painted_iff in Hp as (s & l & Hin & Hi).
  apply keyword_match_whole_word in Hin as [Hocc ->]; [|done].
  by exists W, s.
Qed.

(** A character carries the string format only inside a match of one of the
    two string patterns: a quote, characters other than that quote, and the
    next quote of the same kind. *)
Lemma string_format_origin t i :
  highlightBlock t !! i = Some (Some string_format) →
  ∃ q pre body tail, (q = dq ∨ q = sq) ∧ t = pre ++ q :: body ++ q :: tail
                     ∧ (q ∉ body) ∧ length pre ≤ i < length pre + length body + 2.
Proof.
  intros (rule & Hr & Hf & Hp)%format_origin.
  apply painted_iff in Hp as (s & l & Hin & Hi).
  apply elem_of_highlighting_rules in Hr as [(W & HW & ->) | [-> | [-> | ->]]]; [done| | |done].
  - apply string_match in Hin as (pre & body & tail & -> & <- & Hq & _ & ->).
    exists dq, pre, body, tail. split_and!; [by left|done|done|lia..].
  - apply string_match in Hin as (pre & body & tail & -> & <- & Hq & _ & ->).
    exists sq, pre, body, tail. split_and!; [by right|done|done|lia..].
Qed.

(** The whole table, applied to one character. *)
Lemma last_painter_table t i :
  last_painter t i highlighting_rules None =
    if painted comment_pattern t i then Some comment_format
    else if painted (Some (str_regex sq)) t i || painted (Some (str_regex dq)) t i
         then Some string_format
         else last_painter t i keyword_rules None.
Proof.
  unfold highlighting_rules. rewrite !last_painter_app, string_rules_parsed. simpl.
  destruct (painted comment_pattern t i); [done|].
  destruct (painted (Some (str_regex sq)) t i); [done|].
  by destruct (painted (Some (str_regex dq)) t i).
Qed.

Lemma inside_string_literal_painted t i :
  inside_string_literal t i →
  painted (Some (str_regex sq)) t i || painted (Some (str_regex dq)) t i = true.
Proof.
  intros (rule & Hr & Hp). rewrite string_rules_parsed in Hr.
  apply elem_of_cons in Hr as [->|Hr%list_elem_of_singleton]; simpl in Hp.
  - rewrite Hp. apply orb_true_r.
  - subst rule. simpl in Hp. by rewrite Hp.
Qed.

Lemma last_painter_uniform t i f : ∀ rules init,
  (∀ rule, rule ∈ rules → rule.2 = f) →
  (∃ rule, rule ∈ rules ∧ painted rule.1 t i = true) ∨ init = Some f →
  last_painter t i rules init = Some f.
Proof.
  induction rules as [|r rs IH]; intros init Hf Hp; simpl.
  - destruct Hp as [(rule & []%elem_of_nil & _)|Hp]; done.
  - apply IH; [intros rule Hr; by apply Hf, list_elem_of_further|].
    destruct Hp as [(rule & [-> | Hr]%elem_of_cons & Hp) | ->].
    + right. rewrite Hp. f_equal. apply Hf, list_elem_of_here.
    + left. by exists rule.
    + right. destruct (painted r.1 t i); [|done]. f_equal. apply Hf, list_elem_of_here.
Qed.

Lemma keyword_rules_format rule : rule ∈ keyword_rules → rule.2 = keyword_format.
Proof. unfold keyword_rules. by intros (W & -> & _)%list_elem_of_fmap. Qed.

Lemma string_rules_format rule : rule ∈ string_rules → rule.2 = string_format.
Proof. unfold string_rules. by intros (W & -> & _)%list_elem_of_fmap. Qed.

Lemma whole_word_in_text w t p i :
  whole_word_at w t p → i < p + length w → i < length t.
Proof.
  intros (pre & tail & -> & <- & _) Hi. rewrite !length_app. lia.
Qed.

Ltac solve_elem :=
  repeat first [apply list_elem_of_here | apply list_elem_of_further].

(** * The claims on the highlighter *)

(** C1. The table holds the keyword rules, then the two string-literal rules,
    then the comment rule, and [highlightBlock] applies them in that order.
    For every text and every character of it, the format the character ends
    with is the format of the last rule of the table that has a match over
    it: a later rule overwrites what an earlier one painted. In particular a
    keyword standing as a whole word inside a match of a string-literal rule
    is matched by its keyword rule, yet never ends with the keyword format:
    it ends with the string format (unless the comment rule, applied later
    still, has a match over it as well). On [MOVE "IF" TO X] the characters
    of ["IF"], quotes included, carry the string format. *)
Theorem C1_last_applied_rule_wins :
  highlighting_rules = (keyword_rules ++ string_rules) ++ [(comment_pattern, comment_format)]
  ∧ (∀ rule, rule ∈ keyword_rules → rule.2 = keyword_format)
  ∧ (∀ rule, rule ∈ string_rules → rule.2 = string_format)
  ∧ (∀ t i rules1 rule rules2,
       i < length t →
       highlighting_rules = rules1 ++ rule :: rules2 →
       painted rule.1 t i = true →
       (∀ rule', rule' ∈ rules2 → painted rule'.1 t i = false) →
       highlightBlock t !! i = Some (Some rule.2))
  ∧ (∀ t W p i,
       W ∈ keywords → whole_word_at (text_of W) t p →
       p ≤ i < p + length (text_of W) →
       inside_string_literal t i →
       painted (QRegularExpression (keyword_source W)) t i = true
       ∧ highlightBlock t !! i ≠ Some (Some keyword_format)
       ∧ (painted comment_pattern t i = false →
          highlightBlock t !! i = Some (Some string_format)))
  ∧ highlightBlock move_if_to_x =
      replicate 4 (Some keyword_format) ++ [None] ++
      replicate 4 (Some string_format) ++ replicate 5 None.
Proof.
  split_and!.
  - reflexivity.
  - apply keyword_rules_format.
  - apply string_rules_format.
  - intros t i rules1 rule rules2 Hi Heq Hp Hn.
    rewrite highlightBlock_lookup, Heq by done. f_equal.
    by apply last_painter_last.
  - intros t W p i HW Hocc Hi Hstr.
    assert (i < length t) as Hlen by (eapply whole_word_in_text; [done|lia]).
    split; [by eapply keyword_painted|].
    rewrite highlightBlock_lookup, last_painter_table by done.
    rewrite (inside_string_literal_painted t i Hstr).
    destruct (painted comment_pattern t i); split; [done|done|done|done].
  - vm_compute. reflexivity.
Qed.

(** C1 at [MOVE "IF" TO X]: the keyword [IF] stands at offset 6, inside the
    match of the double-quote rule, and its first character ends with the
    string format. *)
Lemma C1_witness :
  "IF" ∈ keywords
  ∧ whole_word_at (text_of "IF") move_if_to_x 6
  ∧ inside_string_literal move_if_to_x 6
  ∧ painted comment_pattern move_if_to_x 6 = false
  ∧ highlightBlock move_if_to_x !! 6 = Some (Some string_format).
Proof.
  assert ("IF" ∈ keywords) as HW by solve_elem.
  assert (whole_word_at (text_of "IF") move_if_to_x 6) as Hocc.
  { exists (text_of "MOVE " ++ [dq]), (dq :: text_of " TO X"). by split_and!. }
  assert (inside_string_literal move_if_to_x 6) as Hstr.
  { exists (QRegularExpression (dquote +:+ ".*?" +:+ dquote), string_format).
    split; [solve_elem|reflexivity]. }
  assert (painted comment_pattern move_if_to_x 6 = false) as Hc by reflexivity.
  split_and!; [done..|].
  destruct C1_last_applied_rule_wins as (_ & _ & _ & _ & H & _).
  apply (H move_if_to_x "IF" 6 6 HW Hocc); [simpl; lia|done|done].
Defined.

(** C2. When the comment marker is the first thing on a line after optional
    white space, every character of the line carries the comment format at the
    end of [highlightBlock]: the leading white space, the marker and all that
    follows it (a line holds no line feed). When every occurrence of the
    marker on the line has a non-white-space character before it (in
    particular when the line has no marker), the comment rule has no match
    and no character carries the comment format. *)
Theorem C2_comment_marker_first_on_line (t : list N) :
  (∀ ws tail,
     t = ws ++ marker ++ tail → Forall (λ c, is_space c = true) ws → LF ∉ tail →
     (0, length t) ∈ globalMatch comment_pattern t
     ∧ ∀ i, i < length t → highlightBlock t !! i = Some (Some comment_format))
  ∧ ((∀ pre tail, t = pre ++ marker ++ tail → Exists (λ c, is_space c = false) pre) →
     globalMatch comment_pattern t = []
     ∧ ∀ i, highlightBlock t !! i ≠ Some (Some comment_format)).
Proof.
  split.
  - intros ws tail -> Hws Hlf.
    assert (length (ws ++ marker ++ tail) = length ws + 2 + run_length tail) as Hlen.
    { rewrite !length_app, run_length_no_LF by done. simpl. lia. }
    pose proof (comment_reported ws tail Hws) as Hin. rewrite <- Hlen in Hin.
    split; [done|]. intros i Hi.
    rewrite highlightBlock_lookup, last_painter_table by done.
    assert (painted comment_pattern (ws ++ marker ++ tail) i = true) as ->; [|done].
    apply painted_iff. eexists 0, _. split; [done|lia].
  - intros Hpre.
    assert (∀ m, m ∉ globalMatch comment_pattern t) as Hnone.
    { intros [s l] (_ & ws & tail & Ht & Hws & _)%comment_match.
      apply Hpre in Ht. apply Exists_exists in Ht as (c & Hc & Hsp).
      rewrite Forall_forall in Hws. apply Hws in Hc. congruence. }
    split.
    + destruct (globalMatch comment_pattern t) as [|m ms]; [done|].
      exfalso. apply (Hnone m), list_elem_of_here.
    + intros i (rule & Hr & Hf & Hp)%format_origin.
      apply painted_iff in Hp as (s & l & Hin & _).
      apply elem_of_highlighting_rules in Hr as [(W & HW & ->) | [-> | [-> | ->]]];
        [done..|]. by apply Hnone in Hin.
Qed.

(** C2 on the lines [  *> note] and [X *> note]. *)
Lemma C2_witness :
  (text_of "  *> note" = text_of "  " ++ marker ++ text_of " note"
   ∧ Forall (λ c, is_space c = true) (text_of "  ")
   ∧ (LF ∉ text_of " note")
   ∧ highlightBlock (text_of "  *> note") = replicate 9 (Some comment_format))
  ∧ ((∀ pre tail, text_of "X *> note" = pre ++ marker ++ tail →
        Exists (λ c, is_space c = false) pre)
     ∧ globalMatch comment_pattern (text_of "X *> note") = []).
Proof.
  split.
  - assert (Forall (λ c, is_space c = true) (text_of "  ")) as Hws by (by repeat constructor).
    assert (LF ∉ text_of " note") as Hlf.
    { intros H. by repeat (apply elem_of_cons in H as [H|H]; [done|]); apply elem_of_nil in H. }
    split_and!; [done..|].
    destruct (C2_comment_marker_first_on_line (text_of "  *> note")) as [H _].
    destruct (H (text_of "  ") (text_of " note") eq_refl Hws Hlf) as [_ Hall].
    apply list_eq. intros i. destruct (decide (i < 9)) as [Hi|Hi].
    + rewrite (Hall i Hi). symmetry. by apply lookup_replicate_2.
    + rewrite !lookup_ge_None_2; [done|rewrite length_replicate; lia|].
      rewrite highlightBlock_length. simpl. lia.
  - assert (∀ pre tail, text_of "X *> note" = pre ++ marker ++ tail →
              Exists (λ c, is_space c = false) pre) as Hpre.
    { intros [|c pre] tail H; [done|]. injection H as <- _. by left. }
    split; [done|].
    destruct (C2_comment_marker_first_on_line (text_of "X *> note")) as [_ H].
    by destruct (H Hpre).
Defined.

Lemma string_pattern_regex k q pattern :
  string_quotes !! k = Some q → string_patterns !! k = Some pattern →
  pattern = Some (str_regex q).
Proof.
  destruct k as [|[|k]]; simpl; [by intros [= <-] [= <-]..|done].
Qed.

(** C4. Take either string-literal rule and a quote of its kind standing in
    the text with no quote of the same kind after it. The rule has no match
    starting at that quote, and a match of the rule that covers the quote
    ends with it (the quote then closes an earlier one). Every match the rule
    does have runs from a quote to the first quote of the same kind after it,
    and a character carries the string format at the end only inside such a
    match, so only between an opening and an actual closing quote. *)
Theorem C4_unterminated_literal_has_no_match
    (t pre rest : list N) (k : nat) (q : N) (pattern : option (list item)) :
  string_quotes !! k = Some q → string_patterns !! k = Some pattern →
  t = pre ++ q :: rest → q ∉ rest →
  (∀ l, (length pre, l) ∉ globalMatch pattern t)
  ∧ (∀ s l, (s, l) ∈ globalMatch pattern t → s ≤ length pre < s + l →
       s < length pre ∧ s + l = S (length pre))
  ∧ (∀ s l, (s, l) ∈ globalMatch pattern t →
       ∃ pre' body tail, t = pre' ++ q :: body ++ q :: tail ∧ length pre' = s
                         ∧ (q ∉ body) ∧ l = length body + 2)
  ∧ (∀ i, highlightBlock t !! i = Some (Some string_format) →
       ∃ q' pre' body tail, (q' = dq ∨ q' = sq) ∧ t = pre' ++ q' :: body ++ q' :: tail
                            ∧ (q' ∉ body)
                            ∧ length pre' ≤ i < length pre' + length body + 2).
Proof.
  intros Hq Hpat -> Hopen. rewrite (string_pattern_regex k q pattern Hq Hpat).
  assert (∀ l, (length pre, l) ∉ globalMatch (Some (str_regex q)) (pre ++ q :: rest))
    as Hstart.
  { intros l (pre' & body & tail & Heq & Hlen & _)%string_match.
    apply app_inj_1 in Heq as [_ Heq]; [|done]. injection Heq as ->.
    apply Hopen, elem_of_app. right. apply list_elem_of_here. }
  split_and!.
  - done.
  - intros s l Hin Hcov.
    destruct (decide (s = length pre)) as [->|Hne]; [by apply Hstart in Hin|].
    apply string_match in Hin as (pre' & body & tail & Heq & <- & Hb & _ & ->).
    split; [lia|].
    destruct (decide (length pre < length pre' + length body + 1)) as [Hlt|]; [|lia].
    exfalso. apply Hb.
    apply (list_elem_of_lookup_2 _ (length pre - length pre' - 1)).
    pose proof (occ_lookup pre' (q :: body) (q :: tail) (length pre - length pre')) as Hl.
    replace (length pre' + (length pre - length pre')) with (length pre) in Hl by lia.
    simpl in Hl. rewrite <- Heq, list_lookup_middle in Hl by done.
    destruct (length pre - length pre') as [|j] eqn:Ej; [lia|].
    simpl. replace (j - 0) with j by lia. symmetry. apply Hl. lia.
  - intros s l (pre' & body & tail & Heq & Hlen & Hb & _ & ->)%string_match.
    by exists pre', body, tail.
  - apply string_format_origin.
Qed.

(** C4 on that text: no match of the double-quote rule, nothing painted. *)
Lemma C4_witness :
  string_quotes !! 0 = Some dq
  ∧ string_patterns !! 0 = Some (QRegularExpression (dquote +:+ ".*?" +:+ dquote))
  ∧ unterminated = [] ++ dq :: text_of "abc"
  ∧ (dq ∉ text_of "abc")
  ∧ (∀ l, (0, l) ∉ globalMatch (QRegularExpression (dquote +:+ ".*?" +:+ dquote)) unterminated)
  ∧ highlightBlock unterminated = replicate 4 None.
Proof.
  assert (dq ∉ text_of "abc") as Hopen.
  { intros H. by repeat (apply elem_of_cons in H as [H|H]; [done|]); apply elem_of_nil in H. }
  split_and!; [done..| |reflexivity].
  by destruct (C4_unterminated_literal_has_no_match unterminated [] (text_of "abc") 0 dq
                 (QRegularExpression (dquote +:+ ".*?" +:+ dquote))
                 eq_refl eq_refl eq_refl Hopen) as [H _].
Defined.

(** ** Keywords: whole words, longer identifiers, letter case *)

Lemma occurrence_unique (w w' pre pre' tail tail' : list N) :
  pre ++ w ++ tail = pre' ++ w' ++ tail' → length pre = length pre' →
  length w = length w' → pre = pre' ∧ w = w' ∧ tail = tail'.
Proof.
  intros H Hp Hw. apply app_inj_1 in H as [-> H]; [|done].
  by apply app_inj_1 in H as [-> ->].
Qed.

(** C3, as amended. Let a keyword of the vocabulary stand in the text as a
    whole word (no word character before it, none after it). Its rule
    reports a match on exactly the range of the word, and each character of
    the range ends with the keyword format unless a string-literal or the
    comment rule has a match over it (the later rule then overwrites it).
    Where the letters of the keyword stand next to a word character, inside
    a longer identifier, the rule of that keyword has no match at that
    occurrence. And a character ends with the keyword format only inside a
    whole-word occurrence of some keyword of the vocabulary (the letters
    STRING inside UNSTRING are painted, as part of the keyword UNSTRING). *)
Theorem C3_keyword_matches_whole_words_only (t : list N) (W : string) (p : nat) :
  W ∈ keywords →
  (whole_word_at (text_of W) t p →
     (p, length (text_of W)) ∈ globalMatch (QRegularExpression (keyword_source W)) t
     ∧ (∀ l, (p, l) ∈ globalMatch (QRegularExpression (keyword_source W)) t →
             l = length (text_of W))
     ∧ ∀ i, p ≤ i < p + length (text_of W) →
            painted comment_pattern t i = false → ¬ inside_string_literal t i →
            highlightBlock t !! i = Some (Some keyword_format))
  ∧ (embedded_at (text_of W) t p →
     ∀ l, (p, l) ∉ globalMatch (QRegularExpression (keyword_source W)) t)
  ∧ (∀ i, highlightBlock t !! i = Some (Some keyword_format) →
          ∃ W' p', W' ∈ keywords ∧ whole_word_at (text_of W') t p'
                   ∧ p' ≤ i < p' + length (text_of W')).
Proof.
  intros HW. split_and!.
  - intros Hocc. split_and!.
    + by apply keyword_reported.
    + intros l Hin. by apply keyword_match_whole_word in Hin as [_ ->].
    + intros i Hi Hc Hs.
      assert (i < length t) as Hlen by (eapply whole_word_in_text; [done|lia]).
      rewrite highlightBlock_lookup, last_painter_table, Hc by done.
      destruct (painted (Some (str_regex sq)) t i || painted (Some (str_regex dq)) t i) eqn:E.
      * exfalso. apply Hs. unfold inside_string_literal. rewrite string_rules_parsed.
        apply orb_prop in E as [E|E]; eexists (_, _); (split; [|exact E]); solve_elem.
      * f_equal. apply last_painter_uniform; [apply keyword_rules_format|]. left.
        exists (QRegularExpression (keyword_source W), keyword_format).
        split; [|by eapply keyword_painted].
        unfold keyword_rules. apply list_elem_of_fmap. by exists W.
  - intros (pre & tail & -> & <- & Hadj) l Hin.
    apply keyword_match_whole_word in Hin as [(pre' & tail' & Heq & Hlen & Hp & Ht) _]; [|done].
    apply occurrence_unique in Heq as (-> & _ & ->); [|done..].
    destruct Hadj; congruence.
  - apply keyword_format_origin.
Qed.

(** C3, as amended, on [MOVE X], where the keyword at offset 0 is matched and
    painted, and on [MOVEX], where it is not matched. *)
Lemma C3_witness :
  "MOVE" ∈ keywords
  ∧ whole_word_at (text_of "MOVE") (text_of "MOVE X") 0
  ∧ (0, 4) ∈ globalMatch (QRegularExpression (keyword_source "MOVE")) (text_of "MOVE X")
  ∧ painted comment_pattern (text_of "MOVE X") 0 = false
  ∧ ¬ inside_string_literal (text_of "MOVE X") 0
  ∧ highlightBlock (text_of "MOVE X") !! 0 = Some (Some keyword_format)
  ∧ embedded_at (text_of "MOVE") (text_of "MOVEX") 0
  ∧ (∀ l, (0, l) ∉ globalMatch (QRegularExpression (keyword_source "MOVE"))
                     (text_of "MOVEX")).
Proof.
  assert ("MOVE" ∈ keywords) as HW by solve_elem.
  assert (whole_word_at (text_of "MOVE") (text_of "MOVE X") 0) as Hocc.
  { exists [], (text_of " X"). by split_and!. }
  assert (¬ inside_string_literal (text_of "MOVE X") 0) as Hstr.
  { intros (rule & Hr & Hp). rewrite string_rules_parsed in Hr.
    apply elem_of_cons in Hr as [->|Hr]; [done|].
    apply list_elem_of_singleton in Hr as ->. done. }
  assert (embedded_at (text_of "MOVE") (text_of "MOVEX") 0) as Hemb.
  { exists [], (text_of "X"). split_and!; [done..|by right]. }
  destruct (C3_keyword_matches_whole_words_only (text_of "MOVE X") "MOVE" 0 HW)
    as (H & _ & _).
  destruct (H Hocc) as (Hin & _ & Hfmt).
  destruct (C3_keyword_matches_whole_words_only (text_of "MOVEX") "MOVE" 0 HW)
    as (_ & Hno & _).
  split_and!; [done..| |done|by apply Hno].
  apply Hfmt; [simpl; lia|done|done].
Defined.

(** C3 as the specification states it fails on two counts. In ['MOVE'] the
    keyword MOVE stands as a whole word between the quotes, and its
    characters end with the string format, not the keyword format. In
    [UNSTRING] the letters STRING appear only inside the longer identifier
    UNSTRING, and they end with the keyword format. *)
Lemma C3_counterexample :
  ("MOVE" ∈ keywords
   ∧ whole_word_at (text_of "MOVE") (text_of "'MOVE'") 1
   ∧ highlightBlock (text_of "'MOVE'") !! 1 = Some (Some string_format)
   ∧ Some (Some string_format) ≠ Some (Some keyword_format))
  ∧ ("STRING" ∈ keywords
     ∧ occurs_at (text_of "STRING") (text_of "UNSTRING") 2
     ∧ (∀ p, occurs_at (text_of "STRING") (text_of "UNSTRING") p →
             embedded_at (text_of "STRING") (text_of "UNSTRING") p)
     ∧ highlightBlock (text_of "UNSTRING") !! 2 = Some (Some keyword_format)).
Proof.
  split; split_and!.
  - solve_elem.
  - exists [sq], [sq]. by split_and!.
  - reflexivity.
  - done.
  - solve_elem.
  - by exists (text_of "UN"), [].
  - intros p (pre & tail & Heq & <-).
    destruct pre as [|a [|b [|c pre]]]; [done|done| |].
    + injection Heq as <- <- <-.
      exists (text_of "UN"), []. split_and!; [done..|by left].
    + apply (f_equal length) in Heq. rewrite !length_app in Heq. simpl in Heq. lia.
  - reflexivity.
Qed.






(** * Further properties of the highlighter *)

Lemma rule_pattern_valid rule :
  rule ∈ highlighting_rules → ∃ r, rule.1 = Some r.
Proof.
  intros [(W & HW & ->) | [-> | [-> | ->]]]%elem_of_highlighting_rules; simpl; eauto.
  rewrite keyword_regex by done. eauto.
Qed.

(** X1. Every match that a rule of the table reports on a text is non-empty
    and lies inside the text: [highlightBlock] never calls [setFormat] with a
    zero length or a range past the end of the block; and the format array
    has one entry per character. *)
Theorem X1_matches_are_nonempty_and_in_text
    (t : list N) (rule : option (list item) * QTextCharFormat) (s l : nat) :
  rule ∈ highlighting_rules → (s, l) ∈ globalMatch rule.1 t →
  0 < l ∧ s + l ≤ length t ∧ length (highlightBlock t) = length t.
Proof.
  intros Hr Hin. split_and!.
  - by eapply rules_match_nonempty.
  - destruct (rule_pattern_valid rule Hr) as [r Hp]. rewrite Hp in Hin.
    by apply globalMatch_in_text in Hin.
  - apply highlightBlock_length.
Qed.

(** X1 on [MOVE "IF" TO X] and the double-quote rule. *)
Lemma X1_witness :
  (Some (str_regex dq), string_format) ∈ highlighting_rules
  ∧ (5, 4) ∈ globalMatch (Some (str_regex dq)) move_if_to_x
  ∧ 5 + 4 ≤ length move_if_to_x
  ∧ length (highlightBlock move_if_to_x) = 14.
Proof.
  assert ((Some (str_regex dq), string_format) ∈ highlighting_rules) as Hr.
  { apply elem_of_highlighting_rules. auto. }
  assert ((5, 4) ∈ globalMatch (Some (str_regex dq)) move_if_to_x) as Hin
    by (vm_compute; solve_elem).
  destruct (X1_matches_are_nonempty_and_in_text move_if_to_x _ 5 4 Hr Hin) as (_ & H1 & H2).
  by split_and!.
Defined.

Lemma any_painted_iff rules t i :
  any_painted rules t i = true ↔ ∃ rule, rule ∈ rules ∧ painted rule.1 t i = true.
Proof.
  unfold any_painted. rewrite existsb_exists. split.
  - intros (rule & Hr%list_elem_of_In & Hp). eauto.
  - intros (rule & Hr%list_elem_of_In & Hp). eauto.
Qed.

Lemma last_painter_one_format t i f rules :
  (∀ rule, rule ∈ rules → rule.2 = f) →
  last_painter t i rules None = if any_painted rules t i then Some f else None.
Proof.
  intros Hf. destruct (any_painted rules t i) eqn:E.
  - apply last_painter_uniform; [done|]. left. by apply any_painted_iff.
  - apply last_painter_unpainted. intros rule Hr.
    destruct (painted rule.1 t i) eqn:Hp; [|done].
    assert (any_painted rules t i = true) by (apply any_painted_iff; eauto). congruence.
Qed.

(** X2. The format a character ends with is decided by priority: the comment
    format when the comment rule has a match over it; else the string format
    when one of the two string rules has; else the keyword format when one of
    the keyword rules has; else none. *)
Theorem X2_comment_over_string_over_keyword (t : list N) (i : nat) :
  i < length t →
  highlightBlock t !! i =
    Some (if painted comment_pattern t i then Some comment_format
          else if any_painted string_rules t i then Some string_format
          else if any_painted keyword_rules t i then Some keyword_format
          else None).
Proof.
  intros Hi. rewrite highlightBlock_lookup by done. f_equal.
  unfold highlighting_rules. rewrite !last_painter_app.
  change (last_painter t i [(comment_pattern, comment_format)] ?init)
    with (if painted comment_pattern t i then Some comment_format else init).
  destruct (painted comment_pattern t i); [done|].
  rewrite (last_painter_one_format t i keyword_format) by apply keyword_rules_format.
  destruct (any_painted string_rules t i) eqn:Es.
  - apply last_painter_uniform; [apply string_rules_format|]. left.
    by apply any_painted_iff.
  - apply last_painter_unpainted. intros rule Hr.
    destruct (painted rule.1 t i) eqn:Hp; [|done].
    assert (any_painted string_rules t i = true) by (apply any_painted_iff; eauto).
    congruence.
Qed.

(** X2 on the [I] of [MOVE "IF" TO X]: a keyword rule and a string rule have
    a match over it, the comment rule has none. *)
Lemma X2_witness :
  6 < length move_if_to_x
  ∧ any_painted keyword_rules move_if_to_x 6 = true
  ∧ any_painted string_rules move_if_to_x 6 = true
  ∧ painted comment_pattern move_if_to_x 6 = false
  ∧ highlightBlock move_if_to_x !! 6 = Some (Some string_format).
Proof.
  split_and!; [simpl; lia|reflexivity..|].
  by rewrite (X2_comment_over_string_over_keyword move_if_to_x 6) by (simpl; lia).
Defined.

(** ** Quotes pair up from left to right *)

Lemma occurrences_app q l1 l2 :
  occurrences q (l1 ++ l2) = occurrences q l1 + occurrences q l2.
Proof.
  induction l1 as [|c l1 IH]; [done|]. simpl. destruct (c =? q)%N; simpl; lia.
Qed.

Lemma occurrences_none q l : q ∉ l → occurrences q l = 0.
Proof.
  induction l as [|c l IH]; [done|]. intros [Hc Hl]%not_elem_of_cons. simpl.
  destruct (N.eqb_spec c q) as [->|_]; [done|]. by apply IH.
Qed.

Lemma occurrences_some q l : occurrences q l ≠ 0 → q ∈ l.
Proof.
  induction l as [|c l IH]; [done|]. simpl.
  destruct (N.eqb_spec c q) as [->|_]; [intros _; apply list_elem_of_here|].
  intros H. by apply list_elem_of_further, IH.
Qed.

(** Skipping the characters of a match. *)
Lemma scan_skip r : ∀ X prev rest pos,
  scan r prev (X ++ rest) pos (length X) =
    scan r (prev_after prev X) rest (pos + length X) 0.
Proof.
  induction X as [|c X IH]; intros prev rest pos.
  - simpl. by rewrite Nat.add_0_r.
  - simpl. rewrite IH. f_equal; [|lia].
    unfold prev_after. rewrite last_cons. by destruct (last X).
Qed.

Lemma scan_match r prev c rest pos len :
  match_here r prev (c :: rest) = Some len →
  scan r prev (c :: rest) pos 0 = (pos, len) :: scan r (Some c) rest (S pos) (pred len).
Proof. intros H. simpl. by rewrite H. Qed.

Lemma scan_no_match r prev c rest pos :
  match_here r prev (c :: rest) = None →
  scan r prev (c :: rest) pos 0 = scan r (Some c) rest (S pos) 0.
Proof. intros H. simpl. by rewrite H. Qed.

Lemma match_str_not_quote q prev c rest :
  c ≠ q → match_here (str_regex q) prev (c :: rest) = None.
Proof.
  intros Hc. destruct (match_here _ _ _) as [n|] eqn:E; [|done].
  apply match_str in E as (body & tail & [= ->] & _). done.
Qed.

(** The quote after an even number of quotes of its kind opens a match. *)
Lemma str_scan_pairs q body tail : ∀ n A,
  length A ≤ n → ∀ prev pos,
  LF ∉ A → q ∉ body → LF ∉ body → Nat.even (occurrences q A) = true →
  (pos + length A, length body + 2)
    ∈ scan (str_regex q) prev (A ++ q :: body ++ q :: tail) pos 0.
Proof.
  induction n as [|n IH]; intros A Hn prev pos HlfA Hq Hlf Heven.
  - destruct A; [|simpl in Hn; lia]. simpl app.
    rewrite (scan_match _ _ _ _ _ (length body + 2)).
    + rewrite Nat.add_0_r. apply list_elem_of_here.
    + apply match_str. by exists body, tail.
  - destruct A as [|c A].
    { simpl app. rewrite (scan_match _ _ _ _ _ (length body + 2)).
      + rewrite Nat.add_0_r. apply list_elem_of_here.
      + apply match_str. by exists body, tail. }
    apply not_elem_of_cons in HlfA as [Hc HlfA]. simpl in Hn, Heven. simpl app.
    destruct (N.eqb_spec c q) as [->|Hcq].
    + assert (q ∈ A) as Hin.
      { apply occurrences_some. intros H0. by rewrite H0 in Heven. }
      apply list_elem_of_split_l in Hin as (B & A2 & -> & HB).
      rewrite occurrences_app, (occurrences_none q B HB) in Heven. simpl in Heven.
      rewrite N.eqb_refl in Heven. simpl in Heven.
      assert ((LF ∉ B) ∧ (LF ∉ A2)) as [HlfB HlfA2].
      { split; intros ?; apply HlfA; rewrite elem_of_app;
          [by left|right; by apply list_elem_of_further]. }
      rewrite <- !app_assoc. simpl app.
      rewrite (scan_match _ _ _ _ _ (length B + 2)).
      2:{ apply match_str. by exists B, (A2 ++ q :: body ++ q :: tail). }
      apply list_elem_of_further.
      replace (Init.Nat.pred (length B + 2)) with (length (B ++ [q]))
        by (rewrite length_app; simpl; lia).
      replace (B ++ q :: A2 ++ q :: body ++ q :: tail)
        with ((B ++ [q]) ++ A2 ++ q :: body ++ q :: tail) by by rewrite <- app_assoc.
      rewrite scan_skip.
      replace (pos + length (q :: B ++ q :: A2))
        with (S pos + length (B ++ [q]) + length A2)
        by (simpl; rewrite !length_app; simpl; lia).
      apply IH; [|done..]. rewrite length_app in Hn. simpl in Hn. lia.
    + rewrite scan_no_match by by apply match_str_not_quote.
      replace (pos + length (c :: A)) with (S pos + length A) by (simpl; lia).
      apply IH; [lia|done..].
Qed.

(** Every match starts at a quote after an even number of quotes of its
    kind. *)
Lemma str_scan_only_pairs q : ∀ n rest,
  length rest ≤ n → ∀ prev pos s l,
  LF ∉ rest →
  (s, l) ∈ scan (str_regex q) prev rest pos 0 →
  ∃ A body tail, rest = A ++ q :: body ++ q :: tail ∧ s = pos + length A
                 ∧ l = length body + 2 ∧ Nat.even (occurrences q A) = true
                 ∧ (q ∉ body).
Proof.
  induction n as [|n IH]; intros rest Hn prev pos s l Hlf Hin.
  - destruct rest; [|simpl in Hn; lia]. simpl in Hin.
    destruct (match_here (str_regex q) prev []) as [k|] eqn:E;
      [|by apply elem_of_nil in Hin].
    by apply match_str in E as (? & ? & ? & _).
  - destruct rest as [|c rest].
    { simpl in Hin.
      destruct (match_here (str_regex q) prev []) as [k|] eqn:E;
        [|by apply elem_of_nil in Hin].
      by apply match_str in E as (? & ? & ? & _). }
    apply not_elem_of_cons in Hlf as [Hc Hlf]. simpl in Hn.
    destruct (match_here (str_regex q) prev (c :: rest)) as [k|] eqn:E.
    + rewrite (scan_match _ _ _ _ _ k E) in Hin.
      apply match_str in E as (B & T & [= -> ->] & HB & _ & ->).
      apply elem_of_cons in Hin as [[= -> ->]|Hin].
      * exists [], B, T. split_and!; [done|simpl; lia|done..].
      * replace (Init.Nat.pred (length B + 2)) with (length (B ++ [q])) in Hin
          by (rewrite length_app; simpl; lia).
        replace (B ++ q :: T) with ((B ++ [q]) ++ T) in Hin by by rewrite <- app_assoc.
        rewrite scan_skip in Hin.
        apply IH in Hin as (A & body & tail & -> & -> & -> & Heven & Hb).
        -- exists (q :: B ++ q :: A), body, tail. split_and!.
           ++ simpl. by rewrite <- app_assoc.
           ++ simpl. rewrite !length_app. simpl. lia.
           ++ done.
           ++ simpl. rewrite N.eqb_refl, occurrences_app, (occurrences_none q B HB).
              simpl. by rewrite N.eqb_refl.
           ++ done.
        -- rewrite length_app in Hn. simpl in Hn. lia.
        -- intros ?. apply Hlf, elem_of_app. right. by apply list_elem_of_further.
    + rewrite (scan_no_match _ _ _ _ _ E) in Hin.
      apply IH in Hin as (A & body & tail & -> & -> & -> & Heven & Hb); [|lia|done].
      exists (c :: A), body, tail. split_and!; [done|simpl; lia|done| |done].
      simpl. destruct (N.eqb_spec c q) as [->|_]; [exfalso|done].
      assert (q ∈ A ++ q :: body ++ q :: tail) as Hq.
      { apply elem_of_app. right. apply list_elem_of_here. }
      apply list_elem_of_split_l in Hq as (B & T & Heq & HB).
      assert (match_here (str_regex q) prev (q :: B ++ q :: T) = Some (length B + 2)) as E'.
      { apply match_str. exists B, T. split_and!; [done..| |done].
        intros ?. apply Hlf. rewrite Heq, elem_of_app. by left. }
      rewrite <- Heq in E'. congruence.
Qed.

(** X3. On a line, each string rule pairs the quotes of its own kind from
    left to right, whatever quotes of the other kind stand between them: its
    matches are exactly the stretches from a quote that has an even number of
    quotes of its kind before it to the next quote of its kind. (So an
    apostrophe inside a word opens a single-quote match that runs to the
    next single quote on the line.) *)
Theorem X3_quotes_pair_left_to_right
    (t : list N) (k : nat) (q : N) (pattern : option (list item)) (s l : nat) :
  string_quotes !! k = Some q → string_patterns !! k = Some pattern →
  LF ∉ t →
  (s, l) ∈ globalMatch pattern t ↔
  ∃ A body tail, t = A ++ q :: body ++ q :: tail ∧ length A = s
                 ∧ l = length body + 2 ∧ Nat.even (occurrences q A) = true
                 ∧ (q ∉ body).
Proof.
  intros Hq Hpat Hlf. rewrite (string_pattern_regex k q pattern Hq Hpat).
  unfold globalMatch. split.
  - intros Hin.
    apply (str_scan_only_pairs q (length t) t) in Hin
      as (A & body & tail & -> & -> & -> & Heven & Hb); [|done..].
    by exists A, body, tail.
  - intros (A & body & tail & -> & <- & -> & Heven & Hb).
    apply (str_scan_pairs q body tail (length A) A (Nat.le_refl _) None 0); try done.
    + intros ?. apply Hlf, elem_of_app. by left.
    + intros ?. apply Hlf, elem_of_app. right.
      apply list_elem_of_further, elem_of_app. by left.
Qed.

(** X3 on [it's and 'x']: the apostrophe at offset 2 is the first single
    quote, so the single-quote rule matches from it to the quote before [x]. *)
Lemma X3_witness :
  string_quotes !! 1 = Some sq
  ∧ string_patterns !! 1 = Some (QRegularExpression (squote +:+ ".*?" +:+ squote))
  ∧ (LF ∉ apostrophe_line)
  ∧ apostrophe_line = text_of "it" ++ sq :: text_of "s and " ++ sq :: text_of "x'"
  ∧ Nat.even (occurrences sq (text_of "it")) = true
  ∧ (sq ∉ text_of "s and ")
  ∧ (2, 8) ∈ globalMatch (QRegularExpression (squote +:+ ".*?" +:+ squote)) apostrophe_line.
Proof.
  assert (LF ∉ apostrophe_line) as Hlf.
  { intros H. by repeat (apply elem_of_cons in H as [H|H]; [done|]); apply elem_of_nil in H. }
  assert (sq ∉ text_of "s and ") as Hb.
  { intros H. by repeat (apply elem_of_cons in H as [H|H]; [done|]); apply elem_of_nil in H. }
  split_and!; [done..|].
  apply (X3_quotes_pair_left_to_right apostrophe_line 1 sq _ 2 8 eq_refl eq_refl Hlf).
  by exists (text_of "it"), (text_of "s and "), (text_of "x'").
Defined.

End HighlighterFacts.

(** * Part III: the handlers of the window *)

Module IDEFacts.
Import IDE.

Section HandlerFacts.
Variable os : os_module.

(** ** The claims on the compile handler *)

(** The handler up to the call of [subprocess.run]. *)
Lemma handle_compile_cobol_run a s gnubase :
  truthy_opt (current_file s) = true → truthy (getSaveFileName a) = true →
  resolve_gnubase a = Some gnubase →
  ∃ d, handle_compile_cobol os a s =
         show d
           ((match run_result a with
             | Completed returncode _ _ =>
                 showMessage (if (returncode =? 0)%Z then "Compilation successful!"
                              else "Compilation failed")
             | FileNotFoundError _ => id
             | OtherException _ => showMessage "Error during compilation"
             end)
              (emit (Run (compile_command os a gnubase (getSaveFileName a)
                            (default "" (current_file s)))
                       (compile_env os a gnubase)) s))
       ∧ d = match run_result a with
             | Completed returncode _ stderr =>
                 if (returncode =? 0)%Z then success_box
                 else critical "Error" ("Compilation failed:" +:+ nl +:+ stderr)
             | FileNotFoundError _ => not_found_box
             | OtherException e => critical "Error" ("Could not compile file:" +:+ nl +:+ e)
             end.
Proof.
  intros Hf He Hg. unfold handle_compile_cobol. rewrite Hf, He, Hg. simpl.
  destruct (run_result a) as [rc out err|e|e]; [destruct (rc =? 0)%Z|..]; eauto.
Qed.


(** C6. With no file name ([current_file] is [None]) the handler shows the
    warning that the file must be saved first and returns: the compiler is
    not run (the only effect is the warning box), and the file name, the
    editor with its modified flag, the title and the status bar are as
    before. *)
Theorem C6_no_source_file_no_compile (a : answers) (s : CobolIDE) :
  current_file s = None →
  let s' := handle_compile_cobol os a s in
  effects s' = effects s ++ [MessageBox no_source_box]
  ∧ (∀ argv env, Run argv env ∈ effects s' → Run argv env ∈ effects s)
  ∧ current_file s' = None
  ∧ editor s' = editor s
  ∧ windowTitle s' = windowTitle s
  ∧ status_bar s' = status_bar s.
Proof.
  intros Hf s'. subst s'. unfold handle_compile_cobol. rewrite Hf. simpl.
  split_and!; try done.
  intros argv env [H|H]%elem_of_app; [done|].
  by apply list_elem_of_singleton in H.
Qed.

(** ** Toolchain resolution and the invocation *)

Lemma compile_env_lookup a gnubase :
  compile_env os a gnubase !! "GNUBASE" = Some gnubase
  ∧ compile_env os a gnubase !! "COBPATH" =
      Some (path_join os gnubase ["lib"; "gnucobol"] +:+ pathsep os +:+
            path_join os gnubase ["lib"; "cobc"] +:+ pathsep os +:+
            default "" (environ a !! "COBPATH"))
  ∧ compile_env os a gnubase !! "PATH" =
      Some (path_join os gnubase ["bin"] +:+ pathsep os +:+
            default "" (environ a !! "PATH"))
  ∧ (∀ k, k ≠ "GNUBASE" → k ≠ "COBPATH" → k ≠ "PATH" →
          compile_env os a gnubase !! k = environ a !! k).
Proof.
  unfold compile_env. cbv zeta.
  assert (∀ v w : string,
            <["COBPATH" := w]> (<["GNUBASE" := v]> (environ a)) !! "PATH"
            = environ a !! "PATH") as HP
    by (intros v w; by rewrite !lookup_insert_ne by done).
  assert (∀ v : string,
            <["GNUBASE" := v]> (environ a) !! "COBPATH" = environ a !! "COBPATH") as HC
    by (intros v; by rewrite lookup_insert_ne by done).
  rewrite HP, HC. split_and!.
  - rewrite !lookup_insert_ne by done. apply lookup_insert_eq.
  - rewrite lookup_insert_ne by done. apply lookup_insert_eq.
  - apply lookup_insert_eq.
  - intros k H1 H2 H3. by rewrite !lookup_insert_ne by done.
Qed.

(** C7, as amended. The toolchain root is the value of [GNUBASE] when the
    environment sets it to a non-empty text (an empty value counts as not
    set). Otherwise it is the default of the platform: [C:\GnuCOBOL] when
    the platform name starts with [win], [/usr/local] when it starts with
    [darwin] or [linux]; on any other platform the handler shows the
    configuration error and runs nothing. When the root is resolved, the
    command run is the compiler under the root's [bin] directory ([cobc], or
    [cobc.exe] on Windows), then [-x], [-o], the output path and the source
    path; its environment is the process environment with [GNUBASE] set to
    the root, [COBPATH] set to the root's [lib/gnucobol] and [lib/cobc]
    directories followed by the former value, and [PATH] set to the root's
    [bin] directory followed by the former value (an unset variable counts
    as empty), joined with the path-list separator. *)
Theorem C7_toolchain_resolution_and_invocation
    (a : answers) (s : CobolIDE) (src exe : string) :
  current_file s = Some src → truthy src = true →
  getSaveFileName a = exe → truthy exe = true →
  let s' := handle_compile_cobol os a s in
  (∀ g, environ a !! "GNUBASE" = Some g → g ≠ "" → resolve_gnubase a = Some g)
  ∧ (environ a !! "GNUBASE" = None ∨ environ a !! "GNUBASE" = Some "" →
     resolve_gnubase a =
       if startswith (platform a) "win" then Some "C:\GnuCOBOL"
       else if startswith (platform a) "darwin" || startswith (platform a) "linux"
            then Some "/usr/local"
            else None)
  ∧ (resolve_gnubase a = None →
     effects s' = effects s ++ [MessageBox configuration_error_box])
  ∧ (∀ g, resolve_gnubase a = Some g →
     ∃ env d,
       effects s' = effects s ++
         [Run [path_join os g ["bin"; cobc_executable a]; "-x"; "-o"; exe; src] env;
          MessageBox d]
       ∧ cobc_executable a = (if startswith (platform a) "win" then "cobc.exe" else "cobc")
       ∧ env !! "GNUBASE" = Some g
       ∧ env !! "COBPATH" =
           Some (path_join os g ["lib"; "gnucobol"] +:+ pathsep os +:+
                 path_join os g ["lib"; "cobc"] +:+ pathsep os +:+
                 default "" (environ a !! "COBPATH"))
       ∧ env !! "PATH" =
           Some (path_join os g ["bin"] +:+ pathsep os +:+
                 default "" (environ a !! "PATH"))
       ∧ (∀ k, k ≠ "GNUBASE" → k ≠ "COBPATH" → k ≠ "PATH" →
               env !! k = environ a !! k)).
Proof.
  intros Hf Hsrc Hexe He s'. split_and!.
  - intros g Hg Hne. unfold resolve_gnubase. rewrite Hg. simpl.
    unfold truthy. destruct (String.eqb_spec g ""); [done|]. done.
  - intros [Hg|Hg]; unfold resolve_gnubase; by rewrite Hg.
  - intros Hg. subst s'. unfold handle_compile_cobol.
    rewrite Hf. simpl. rewrite Hsrc, Hexe, He, Hg. done.
  - intros g Hg.
    destruct (handle_compile_cobol_run a s g) as (d & Hs' & _);
      [by rewrite Hf|by rewrite Hexe|done|].
    exists (compile_env os a g), d. fold s' in Hs'.
    destruct (compile_env_lookup a g) as (H1 & H2 & H3 & H4).
    split_and!; try done.
    rewrite Hs', Hf, Hexe. simpl.
    destruct (run_result a); simpl; by rewrite <- app_assoc.
Qed.

(** ** The session: file name, content, modified flag *)

Lemma title_current_file s : current_file (_update_window_title os s) = current_file s.
Proof.
  unfold _update_window_title.
  destruct (current_file s) as [f|] eqn:E; [destruct (truthy f)|]; simpl; by rewrite ?E.
Qed.

Lemma title_editor s : editor (_update_window_title os s) = editor s.
Proof.
  unfold _update_window_title.
  by destruct (current_file s) as [f|]; [destruct (truthy f)|].
Qed.

Lemma title_effects s : effects (_update_window_title os s) = effects s.
Proof.
  unfold _update_window_title.
  by destruct (current_file s) as [f|]; [destruct (truthy f)|].
Qed.

Lemma title_status_bar s : status_bar (_update_window_title os s) = status_bar s.
Proof.
  unfold _update_window_title.
  by destruct (current_file s) as [f|]; [destruct (truthy f)|].
Qed.

Create Rewrite HintDb session.
Hint Rewrite title_current_file title_editor title_effects title_status_bar : session.

Ltac session := repeat (progress (simpl; autorewrite with session)).

Lemma new_file_session s :
  current_file (new_file os s) = None
  ∧ editor (new_file os s) = {| toPlainText := ""; isModified := false |}
  ∧ effects (new_file os s) = effects s.
Proof. unfold new_file. cbv zeta. by session. Qed.

Lemma _open_file_ok a file_path s content :
  read_result a = inl content →
  editor (_open_file os a file_path s) = {| toPlainText := content; isModified := false |}
  ∧ current_file (_open_file os a file_path s) = Some file_path
  ∧ effects (_open_file os a file_path s) = effects s.
Proof. intros Hr. unfold _open_file. rewrite Hr. cbv zeta. by session. Qed.

Lemma _save_to_path_ok a file_path s :
  write_result a = None →
  editor (_save_to_path os a file_path s) =
    {| toPlainText := toPlainText (editor s); isModified := false |}
  ∧ current_file (_save_to_path os a file_path s) = Some file_path
  ∧ effects (_save_to_path os a file_path s) =
      effects s ++ [Written file_path (toPlainText (editor s))].
Proof. intros Hw. unfold _save_to_path. rewrite Hw. cbv zeta. by session. Qed.

(** A write that raises: the window is as before, but for the effects. *)
Lemma _save_to_path_failed a file_path s e :
  write_result a = Some e →
  editor (_save_to_path os a file_path s) = editor s
  ∧ current_file (_save_to_path os a file_path s) = current_file s
  ∧ windowTitle (_save_to_path os a file_path s) = windowTitle s
  ∧ status_bar (_save_to_path os a file_path s) = status_bar s
  ∧ effects (_save_to_path os a file_path s) = effects s ++ failed_write a file_path e.
Proof.
  intros Hw. unfold _save_to_path, failed_write. rewrite Hw.
  destruct (write_opened a); simpl; split_and!; try done.
  by rewrite <- app_assoc.
Qed.

Lemma _save_to_path_flag a file_path s :
  _document_is_modified (_save_to_path os a file_path s) = true →
  _document_is_modified s = true.
Proof.
  unfold _document_is_modified. destruct (write_result a) as [e|] eqn:Hw.
  - by destruct (_save_to_path_failed a file_path s e Hw) as (-> & _).
  - by destruct (_save_to_path_ok a file_path s Hw) as (-> & _).
Qed.

Lemma _save_to_path_effects a file_path s :
  ∃ more, effects (_save_to_path os a file_path s) = effects s ++ more.
Proof.
  destruct (write_result a) as [e|] eqn:Hw.
  - destruct (_save_to_path_failed a file_path s e Hw) as (_ & _ & _ & _ & ->). eauto.
  - destruct (_save_to_path_ok a file_path s Hw) as (_ & _ & ->). eauto.
Qed.

Lemma handle_save_file_flag a s :
  _document_is_modified (handle_save_file os a s) = true → _document_is_modified s = true.
Proof.
  unfold handle_save_file, handle_save_file_as.
  destruct (negb _); [destruct (truthy _); [|done]|]; apply _save_to_path_flag.
Qed.

Lemma handle_save_file_effects a s :
  ∃ more, effects (handle_save_file os a s) = effects s ++ more.
Proof.
  unfold handle_save_file, handle_save_file_as.
  destruct (negb _); [destruct (truthy _)|]; try apply _save_to_path_effects.
  exists []. by rewrite app_nil_r.
Qed.

(** C8, as amended. The document's modified flag is the dirty flag of the
    session; it is kept by Qt, and no line of the program sets it. It is
    false right after a successful open: [_open_file], and
    [handle_open_file] when it gets to read the file. It is false right
    after a successful save: [_save_to_path], reached from [handle_save_file]
    with the current file name or, without one, through the save-as dialog,
    and from [handle_save_file_as]. An edit made in the editor leaves it
    set, but for an undo or redo that brings the document back to its last
    unmodified state, which changes the content and clears the flag. No
    handler ever sets it: after any of them it is set only if it was
    before. *)
Theorem C8_dirty_flag (a : answers) (s : CobolIDE) (file_path : string) :
  (∀ content, read_result a = inl content →
     _document_is_modified (_open_file os a file_path s) = false
     ∧ current_file (_open_file os a file_path s) = Some file_path)
  ∧ (∀ content, read_result a = inl content →
     _document_is_modified s = false →
     getOpenFileName a = file_path → truthy file_path = true →
     handle_open_file os a s = _open_file os a file_path s)
  ∧ (write_result a = None →
     _document_is_modified (_save_to_path os a file_path s) = false
     ∧ toPlainText (editor (_save_to_path os a file_path s)) = toPlainText (editor s)
     ∧ current_file (_save_to_path os a file_path s) = Some file_path)
  ∧ (current_file s = Some file_path → truthy file_path = true →
     handle_save_file os a s = _save_to_path os a file_path s)
  ∧ (getSaveFileName a = file_path → truthy file_path = true →
     handle_save_file_as os a s = _save_to_path os a file_path s
     ∧ (truthy_opt (current_file s) = false →
        handle_save_file os a s = _save_to_path os a file_path s))
  ∧ (∀ content, _document_is_modified (user_edit content s) = true
                ∧ toPlainText (editor (user_edit content s)) = content)
  ∧ (∀ clean, _document_is_modified (user_undo clean s) = false
              ∧ toPlainText (editor (user_undo clean s)) = clean)
  ∧ (∀ h, h ∈ [handle_new_file os; handle_open_file os; handle_save_file os; handle_save_file_as os;
               handle_compile_cobol os; λ a s, (closeEvent os a s).2] →
     _document_is_modified (h a s) = true → _document_is_modified s = true).
Proof.
  split_and!.
  - intros content Hr.
    destruct (_open_file_ok a file_path s content Hr) as (He & Hf & _).
    unfold _document_is_modified. by rewrite He, Hf.
  - intros content Hr Hm <- Ht. unfold handle_open_file, open_dialog. by rewrite Hm, Ht.
  - intros Hw. destruct (_save_to_path_ok a file_path s Hw) as (He & Hf & _).
    unfold _document_is_modified. by rewrite He, Hf.
  - intros Hf Ht. unfold handle_save_file. rewrite Hf. simpl. by rewrite Ht.
  - intros <- Ht. unfold handle_save_file, handle_save_file_as. rewrite Ht.
    split; [done|]. by intros ->.
  - done.
  - done.
  - intros h Hh.
    repeat (apply elem_of_cons in Hh as [->|Hh]); [..|by apply elem_of_nil in Hh].
    + unfold handle_new_file. destruct (_document_is_modified s) eqn:Hm; [done|].
      destruct (new_file_session s) as (_ & He & _).
      unfold _document_is_modified. by rewrite He.
    + unfold handle_open_file. destruct (_document_is_modified s) eqn:Hm; [done|].
      unfold open_dialog. destruct (truthy _); [|by rewrite Hm].
      destruct (read_result a) as [content|e] eqn:Hr.
      * destruct (_open_file_ok a (getOpenFileName a) s content Hr) as (He & _).
        unfold _document_is_modified. by rewrite He.
      * unfold _open_file. rewrite Hr. unfold _document_is_modified in *. simpl.
        by rewrite Hm.
    + apply handle_save_file_flag.
    + unfold handle_save_file_as. destruct (truthy _); [|done].
      apply _save_to_path_flag.
    + unfold handle_compile_cobol.
      destruct (negb _); [done|]. destruct (negb _); [done|].
      destruct (resolve_gnubase a); [|done].
      destruct (run_result a) as [rc ? ?| |]; [destruct (rc =? 0)%Z|..]; done.
    + unfold closeEvent. destruct (_document_is_modified s) eqn:Hm; [done|].
      simpl. by rewrite Hm.
Qed.

(** ** New *)

(** On a session with unsaved changes [handle_new_file] first shows the
    unsaved-changes box, whatever follows. When the answer is Cancel nothing
    else happens: file name, content, modified flag, title and status bar
    are as before, and nothing is written. The content and the file name of
    such a session change only when the answer is Save. On a session
    without unsaved changes there is no box: the content becomes empty, the
    file name is dropped and the modified flag is false. *)
Lemma handle_new_file_prompt (a : answers) (s : CobolIDE) :
  let s' := handle_new_file os a s in
  let box := MessageBox (warning "Unsaved Changes"
                           "Do you want to save before creating a new file?") in
  (_document_is_modified s = true →
     ∃ more, effects s' = effects s ++ box :: more)
  ∧ (_document_is_modified s = true → reply a = Cancel →
     current_file s' = current_file s ∧ editor s' = editor s
     ∧ windowTitle s' = windowTitle s ∧ status_bar s' = status_bar s
     ∧ effects s' = effects s ++ [box])
  ∧ (_document_is_modified s = true →
     current_file s' ≠ current_file s ∨ editor s' ≠ editor s → reply a = Save)
  ∧ (_document_is_modified s = false →
     toPlainText (editor s') = "" ∧ current_file s' = None
     ∧ _document_is_modified s' = false ∧ effects s' = effects s).
Proof.
  intros s' box. subst s'. unfold handle_new_file, _prompt_save_discard_cancel.
  split_and!.
  - intros ->. destruct (reply a); cbn [py_not]; cbv beta iota zeta; [|by exists []..].
    destruct (new_file_session (handle_save_file os a (show (warning "Unsaved Changes"
                "Do you want to save before creating a new file?") s))) as (_ & _ & ->).
    destruct (handle_save_file_effects a (show (warning "Unsaved Changes"
                "Do you want to save before creating a new file?") s)) as [more ->].
    exists more. simpl. by rewrite <- app_assoc.
  - intros -> ->. simpl. done.
  - intros -> Hch. destruct (reply a); simpl in Hch; [done|by destruct Hch..].
  - intros ->. destruct (new_file_session s) as (Hf & He & Hx).
    unfold _document_is_modified. by rewrite Hf, He, Hx.
Qed.

(** ** The other answers to the unsaved-changes box *)

(** The handler tests the result of the prompt with [not]: the answer Discard
    ([False]) ends the handler like Cancel ([None]). *)
Lemma handle_new_file_discard (a : answers) (s : CobolIDE) :
  _document_is_modified s = true → reply a = Discard →
  handle_new_file os a s =
    show (warning "Unsaved Changes" "Do you want to save before creating a new file?") s.
Proof.
  intros Hm Hr. unfold handle_new_file, _prompt_save_discard_cancel. by rewrite Hm, Hr.
Qed.

(** ** Saves that store nothing *)

Lemma _save_to_path_text a file_path s :
  toPlainText (editor (_save_to_path os a file_path s)) = toPlainText (editor s).
Proof.
  destruct (write_result a) as [e|] eqn:Hw.
  - by destruct (_save_to_path_failed a file_path s e Hw) as (-> & _).
  - by destruct (_save_to_path_ok a file_path s Hw) as (-> & _).
Qed.

Lemma handle_save_file_as_text a s :
  toPlainText (editor (handle_save_file_as os a s)) = toPlainText (editor s).
Proof.
  unfold handle_save_file_as. destruct (truthy _); [apply _save_to_path_text|done].
Qed.

Lemma handle_save_file_text a s :
  toPlainText (editor (handle_save_file os a s)) = toPlainText (editor s).
Proof.
  unfold handle_save_file.
  destruct (negb _); [apply handle_save_file_as_text|apply _save_to_path_text].
Qed.

Lemma failed_write_not_Written a path e p c : Written p c ∉ failed_write a path e.
Proof.
  unfold failed_write. destruct (write_opened a); simpl.
  - by intros [H|H%list_elem_of_singleton]%elem_of_cons.
  - by intros H%list_elem_of_singleton.
Qed.

(** The file a save writes to: the current file or, without one, the name
    picked in the save-as dialog, if any. *)
Lemma handle_save_file_as_failed a s e :
  write_result a = Some e →
  editor (handle_save_file_as os a s) = editor s
  ∧ current_file (handle_save_file_as os a s) = current_file s
  ∧ windowTitle (handle_save_file_as os a s) = windowTitle s
  ∧ effects (handle_save_file_as os a s)
    = effects s ++ (if truthy (getSaveFileName a)
                    then failed_write a (getSaveFileName a) e else []).
Proof.
  intros Hw. unfold handle_save_file_as. destruct (truthy _).
  - by destruct (_save_to_path_failed a (getSaveFileName a) s e Hw)
      as (-> & -> & -> & _ & ->).
  - by rewrite app_nil_r.
Qed.

Lemma handle_save_file_failed a s e :
  write_result a = Some e →
  editor (handle_save_file os a s) = editor s
  ∧ current_file (handle_save_file os a s) = current_file s
  ∧ windowTitle (handle_save_file os a s) = windowTitle s
  ∧ effects (handle_save_file os a s)
    = effects s ++ (if truthy_opt (current_file s)
                    then failed_write a (default "" (current_file s)) e
                    else if truthy (getSaveFileName a)
                         then failed_write a (getSaveFileName a) e else []).
Proof.
  intros Hw. unfold handle_save_file. destruct (truthy_opt _); simpl.
  - by destruct (_save_to_path_failed a (default "" (current_file s)) s e Hw)
      as (-> & -> & -> & _ & ->).
  - by apply handle_save_file_as_failed.
Qed.

(** A save that stores nothing: the write raises, or there is no file name
    and the save-as dialog is dismissed. Editor, file name and title are as
    before, and no file is written in full. *)
Lemma handle_save_file_nothing_saved a s :
  write_result a ≠ None
  ∨ (truthy_opt (current_file s) = false ∧ getSaveFileName a = "") →
  editor (handle_save_file os a s) = editor s
  ∧ current_file (handle_save_file os a s) = current_file s
  ∧ windowTitle (handle_save_file os a s) = windowTitle s
  ∧ ∃ more, effects (handle_save_file os a s) = effects s ++ more
            ∧ ∀ p c, Written p c ∉ more.
Proof.
  intros [Hw|[Hf Hd]].
  - destruct (write_result a) as [e|] eqn:E; [|done].
    destruct (handle_save_file_failed a s e E) as (He & Hc & Ht & Hx).
    split_and!; [done..|]. eexists. split; [exact Hx|].
    intros p c. destruct (truthy_opt _); [|destruct (truthy _)];
      try apply failed_write_not_Written. apply not_elem_of_nil.
  - unfold handle_save_file, handle_save_file_as. rewrite Hf, Hd. simpl.
    split_and!; [done..|]. exists []. split; [by rewrite app_nil_r|].
    intros p c. apply not_elem_of_nil.
Qed.

(** C9. Where the code departs from the claim. On a session with unsaved
    changes, when the box is answered with Save and the save stores nothing
    (the write raises, or there is no file name and the save-as dialog is
    dismissed), the changes are still unsaved and [handle_new_file] does
    not stop: after the box, and whatever the failed save showed, it empties
    the editor, drops the file name and clears the modified flag, and no
    file was written in full. ([_prompt_save_discard_cancel] returns [True]
    after [handle_save_file] whether or not it saved.) *)
Theorem C9_new_file_after_unsuccessful_save (a : answers) (s : CobolIDE) :
  _document_is_modified s = true → reply a = Save →
  write_result a ≠ None
  ∨ (truthy_opt (current_file s) = false ∧ getSaveFileName a = "") →
  let s' := handle_new_file os a s in
  editor s' = {| toPlainText := ""; isModified := false |}
  ∧ current_file s' = None
  ∧ ∃ more, effects s' = effects s
                ++ MessageBox (unsaved_box
                     "Do you want to save before creating a new file?") :: more
            ∧ ∀ p c, Written p c ∉ more.
Proof.
  intros Hm Hr Hns s'. subst s'.
  unfold handle_new_file, _prompt_save_discard_cancel.
  rewrite Hm, Hr. cbn [py_not]. cbv beta iota zeta.
  fold (unsaved_box "Do you want to save before creating a new file?").
  set (s1 := show (unsaved_box "Do you want to save before creating a new file?") s).
  destruct (new_file_session (handle_save_file os a s1)) as (Hf & He & Hx).
  destruct (handle_save_file_nothing_saved a s1 Hns) as (_ & _ & _ & more & Hx' & Hw).
  split_and!; [done..|]. exists more. split; [|done].
  rewrite Hx, Hx'. simpl. by rewrite <- app_assoc.
Qed.

(** * Further properties of the handlers *)

(** ** Saving *)


(** X5. Saving under a new name, editing, then saving: the second save asks
    for no name. It writes the edited text to the name picked in the save-as
    dialog, whatever the file dialog would answer now, and leaves the
    document unmodified under that name. *)
Theorem X5_save_after_save_as (a1 a2 : answers) (s : CobolIDE) (content : string) :
  write_result a1 = None → truthy (getSaveFileName a1) = true →
  write_result a2 = None →
  let s1 := handle_save_file_as os a1 s in
  let s2 := handle_save_file os a2 (user_edit content s1) in
  current_file s1 = Some (getSaveFileName a1)
  ∧ isModified (editor s1) = false
  ∧ current_file s2 = Some (getSaveFileName a1)
  ∧ editor s2 = {| toPlainText := content; isModified := false |}
  ∧ effects s2 = effects s ++ [Written (getSaveFileName a1) (toPlainText (editor s));
                               Written (getSaveFileName a1) content].
Proof.
  intros Hw1 Hp Hw2 s1 s2.
  assert (s1 = _save_to_path os a1 (getSaveFileName a1) s) as Hs1.
  { unfold s1, handle_save_file_as. by rewrite Hp. }
  destruct (_save_to_path_ok a1 (getSaveFileName a1) s Hw1) as (He1 & Hf1 & Hx1).
  rewrite <- Hs1 in He1, Hf1, Hx1.
  assert (s2 = _save_to_path os a2 (getSaveFileName a1) (user_edit content s1)) as Hs2.
  { unfold s2, handle_save_file. simpl. rewrite Hf1. simpl. by rewrite Hp. }
  destruct (_save_to_path_ok a2 (getSaveFileName a1) (user_edit content s1) Hw2)
    as (He2 & Hf2 & Hx2).
  rewrite <- Hs2 in He2, Hf2, Hx2. simpl in He2, Hx2.
  split_and!; [done|by rewrite He1|done|done|].
  by rewrite Hx2, Hx1, <- app_assoc.
Qed.

(** X6. Saving, compiling and closing never change the text of the editor;
    compiling changes neither the file name, nor the editor, nor the title,
    and records no file as written. *)
Theorem X6_text_is_kept (a : answers) (s : CobolIDE) :
  (∀ h, h ∈ [handle_save_file os; handle_save_file_as os; handle_compile_cobol os;
             λ a s, (closeEvent os a s).2] →
        toPlainText (editor (h a s)) = toPlainText (editor s))
  ∧ current_file (handle_compile_cobol os a s) = current_file s
  ∧ editor (handle_compile_cobol os a s) = editor s
  ∧ windowTitle (handle_compile_cobol os a s) = windowTitle s
  ∧ (∀ p c, Written p c ∈ effects (handle_compile_cobol os a s) →
            Written p c ∈ effects s).
Proof.
  assert (∃ new, (∀ p c, Written p c ∉ new)
                 ∧ current_file (handle_compile_cobol os a s) = current_file s
                 ∧ editor (handle_compile_cobol os a s) = editor s
                 ∧ windowTitle (handle_compile_cobol os a s) = windowTitle s
                 ∧ effects (handle_compile_cobol os a s) = effects s ++ new)
    as (new & Hnew & Hf & He & Ht & Hx).
  { unfold handle_compile_cobol.
    destruct (negb _); [|destruct (negb _); [|destruct (resolve_gnubase a) as [g|]]].
    - eexists [_]. split_and!; [|done..].
      intros p c H%list_elem_of_singleton. done.
    - exists []. split_and!; [|done..|by rewrite app_nil_r].
      intros p c H. by apply elem_of_nil in H.
    - destruct (run_result a) as [rc ? ?| |]; [destruct (rc =? 0)%Z|..];
        (eexists [Run _ _; MessageBox _]; split_and!;
         [intros p c [H|H%list_elem_of_singleton]%elem_of_cons; done
         |done..
         |simpl; by rewrite <- app_assoc]).
    - eexists [_]. split_and!; [|done..].
      intros p c H%list_elem_of_singleton. done. }
  split_and!; try done.
  - intros h Hh.
    repeat (apply elem_of_cons in Hh as [->|Hh]); [..|by apply elem_of_nil in Hh].
    + apply handle_save_file_text.
    + apply handle_save_file_as_text.
    + by rewrite He.
    + unfold closeEvent, _prompt_save_discard_cancel.
      destruct (_document_is_modified s); [|done].
      destruct (reply a); simpl; [|done..].
      by rewrite handle_save_file_text.
  - intros p c. rewrite Hx. intros [H|H]%elem_of_app; [done|]. by apply Hnew in H.
Qed.

(** ** Closing and opening *)

(** X7. The close event is ignored exactly when the document is modified
    and the box is answered with Cancel. An unmodified document closes
    without a box and without any effect. After Discard the window closes
    with the session as it was; after Save it closes once [handle_save_file]
    has run, whether or not it saved: when the write raises, the window
    closes with its text unchanged and still flagged as modified, and after
    the box nothing was done but what the failed save does (no file is
    written in full). *)
Theorem X7_close_event (a : answers) (s : CobolIDE) :
  let box := unsaved_box "Do you want to save your changes before exiting?" in
  ((closeEvent os a s).1 = false ↔ _document_is_modified s = true ∧ reply a = Cancel)
  ∧ (_document_is_modified s = false → (closeEvent os a s).2 = s)
  ∧ (_document_is_modified s = true → reply a ≠ Save →
     (closeEvent os a s).2 = show box s)
  ∧ (_document_is_modified s = true → reply a = Save →
     (closeEvent os a s).2 = handle_save_file os a (show box s))
  ∧ (∀ e, _document_is_modified s = true → reply a = Save → write_result a = Some e →
     (closeEvent os a s).1 = true
     ∧ editor (closeEvent os a s).2 = editor s
     ∧ _document_is_modified (closeEvent os a s).2 = true
     ∧ ∃ more, effects (closeEvent os a s).2 = effects s ++ MessageBox box :: more
               ∧ (more = [] ∨ ∃ path, more = failed_write a path e)
               ∧ ∀ p c, Written p c ∉ more).
Proof.
  intros box. unfold closeEvent, _prompt_save_discard_cancel. fold (unsaved_box
    "Do you want to save your changes before exiting?"). fold box. split_and!.
  - destruct (_document_is_modified s); [|by split; [|intros []]].
    destruct (reply a); simpl; split; try done; by intros [].
  - by intros ->.
  - intros -> Hr. by destruct (reply a).
  - by intros -> ->.
  - intros e Hm -> Hw. rewrite Hm. cbv beta iota zeta.
    destruct (handle_save_file_failed a (show box s) e Hw) as (He & _ & _ & Hx).
    unfold _document_is_modified in *. cbn [fst snd]. rewrite He.
    split_and!; [done..|].
    eexists. split; [rewrite Hx; simpl; rewrite <- app_assoc; reflexivity|].
    destruct (truthy_opt _); [|destruct (truthy _)];
      (split; [eauto|]); intros p c;
      try apply failed_write_not_Written; apply not_elem_of_nil.
Qed.

(** X8. Discard does not discard in New and Open: the handlers test the
    result of the prompt with [not], so that the answer Discard abandons
    the action as Cancel does. The window is as before but for the box: the
    text is kept and still flagged as modified, no file dialog is shown,
    nothing is read or written. *)
Theorem X8_discard_abandons_new_and_open (a : answers) (s : CobolIDE) :
  _document_is_modified s = true → reply a ≠ Save →
  handle_new_file os a s
  = show (unsaved_box "Do you want to save before creating a new file?") s
  ∧ handle_open_file os a s
    = show (unsaved_box "Do you want to save before opening a new file?") s.
Proof.
  intros Hm Hr. unfold handle_new_file, handle_open_file, _prompt_save_discard_cancel.
  rewrite Hm. by destruct (reply a).
Qed.

(** X9. After the answer Save, Open goes on whether or not anything was
    saved. When the save stored nothing (the write raises, or there is no
    file name and the save-as dialog is dismissed) and the file picked is
    read, the document is the file read, under its name and flagged as
    unmodified: its text is the one [_open_file] installs whatever the
    editor held, so that the unsaved text is gone, and no file was written
    in full. *)
Theorem X9_open_goes_on_after_unsuccessful_save (a : answers) (s : CobolIDE)
    (content : string) :
  _document_is_modified s = true → reply a = Save →
  write_result a ≠ None
  ∨ (truthy_opt (current_file s) = false ∧ getSaveFileName a = "") →
  truthy (getOpenFileName a) = true → read_result a = inl content →
  let s' := handle_open_file os a s in
  _document_is_modified s' = false
  ∧ current_file s' = Some (getOpenFileName a)
  ∧ (∀ s0, toPlainText (editor s')
           = toPlainText (editor (_open_file os a (getOpenFileName a) s0)))
  ∧ ∃ more, effects s' = effects s
                ++ MessageBox (unsaved_box
                     "Do you want to save before opening a new file?") :: more
            ∧ ∀ p c, Written p c ∉ more.
Proof.
  intros Hm Hr Hns Hp Hc s'. subst s'.
  unfold handle_open_file, _prompt_save_discard_cancel.
  rewrite Hm, Hr. cbn [py_not]. cbv beta iota zeta.
  fold (unsaved_box "Do you want to save before opening a new file?").
  set (s1 := show (unsaved_box "Do you want to save before opening a new file?") s).
  unfold open_dialog. rewrite Hp.
  destruct (_open_file_ok a (getOpenFileName a) (handle_save_file os a s1) content Hc)
    as (He & Hf & Hx).
  destruct (handle_save_file_nothing_saved a s1 Hns) as (_ & _ & _ & more & Hx' & Hw).
  unfold _document_is_modified. rewrite He. split_and!; [done..| |].
  - intros s0. by destruct (_open_file_ok a (getOpenFileName a) s0 content Hc) as (-> & _).
  - exists more. split; [|done]. rewrite Hx, Hx'. simpl. by rewrite <- app_assoc.
Qed.

(** X10. Open changes the text of the editor only by installing a file it
    has read. When the file dialog is dismissed or reading raises, the text
    is the one before; on a document without unsaved changes the whole
    window is then as before, but for the error box when reading raised. *)
Theorem X10_open_without_read_keeps_text (a : answers) (s : CobolIDE) :
  getOpenFileName a = "" ∨ (∃ e, read_result a = inr e) →
  toPlainText (editor (handle_open_file os a s)) = toPlainText (editor s)
  ∧ (_document_is_modified s = false →
     (getOpenFileName a = "" → handle_open_file os a s = s)
     ∧ (∀ e, truthy (getOpenFileName a) = true → read_result a = inr e →
        handle_open_file os a s
        = show (critical "Error" ("Could not open file:" +:+ nl +:+ e)) s)).
Proof.
  intros Hno.
  assert (∀ s0, toPlainText (editor (open_dialog os a s0)) = toPlainText (editor s0))
    as Hod.
  { intros s0. unfold open_dialog, _open_file.
    destruct Hno as [-> | [e ->]]; [done|]. by destruct (truthy _). }
  split.
  - unfold handle_open_file, _prompt_save_discard_cancel.
    destruct (_document_is_modified s); [|apply Hod].
    destruct (reply a); cbn [py_not]; cbv beta iota zeta; [|done..].
    by rewrite Hod, handle_save_file_text.
  - intros Hm. unfold handle_open_file, open_dialog, _open_file. rewrite Hm. split.
    + by intros ->.
    + by intros e -> ->.
Qed.

(** X11. Saving under a name and opening that file again, when reading
    gives back what was written: the editor, the file name and the title
    are those after the save, and nothing more is shown or written. *)
Theorem X11_save_then_open_again (a1 a2 : answers) (s : CobolIDE) :
  write_result a1 = None → truthy (getSaveFileName a1) = true →
  getOpenFileName a2 = getSaveFileName a1 →
  read_result a2 = inl (toPlainText (editor s)) →
  let s1 := handle_save_file_as os a1 s in
  let s2 := handle_open_file os a2 s1 in
  editor s2 = editor s1 ∧ current_file s2 = current_file s1
  ∧ windowTitle s2 = windowTitle s1 ∧ effects s2 = effects s1
  ∧ toPlainText (editor s2) = toPlainText (editor s).
Proof.
  intros Hw Hp Hn Hr s1 s2.
  assert (s1 = _save_to_path os a1 (getSaveFileName a1) s) as Hs1.
  { unfold s1, handle_save_file_as. by rewrite Hp. }
  destruct (_save_to_path_ok a1 (getSaveFileName a1) s Hw) as (He1 & Hf1 & Hx1).
  rewrite <- Hs1 in He1, Hf1, Hx1.
  assert (s2 = _open_file os a2 (getSaveFileName a1) s1) as Hs2.
  { unfold s2, handle_open_file, _document_is_modified, open_dialog.
    by rewrite He1, Hn, Hp. }
  destruct (_open_file_ok a2 (getSaveFileName a1) s1 _ Hr) as (He2 & Hf2 & Hx2).
  rewrite <- Hs2 in He2, Hf2, Hx2.
  split_and!; [by rewrite He1, He2|by rewrite Hf1, Hf2| |done|by rewrite He2].
  rewrite Hs2. unfold _open_file. rewrite Hr. cbv zeta. simpl.
  rewrite Hs1. unfold _save_to_path. rewrite Hw. cbv zeta. simpl.
  unfold _update_window_title. simpl. by rewrite Hp.
Qed.

(** ** Compiling *)

(** X12. One trigger of Compile runs the compiler at most once, and exactly
    when there is a non-empty file name, an output path was picked and a
    toolchain root is resolved; the run is then followed by one message
    box. Otherwise nothing is run and at most one box is shown. With a file
    name, dismissing the output dialog leaves the window exactly as it
    was. *)
Theorem X12_compile_runs_exactly_when_ready (a : answers) (s : CobolIDE) :
  let s' := handle_compile_cobol os a s in
  let ready := truthy_opt (current_file s) = true ∧ truthy (getSaveFileName a) = true
               ∧ is_Some (resolve_gnubase a) in
  (∃ new, effects s' = effects s ++ new
          ∧ ((ready ∧ ∃ argv env d, new = [Run argv env; MessageBox d])
             ∨ (¬ ready ∧ (new = [] ∨ ∃ d, new = [MessageBox d]))))
  ∧ (truthy_opt (current_file s) = true → getSaveFileName a = "" → s' = s).
Proof.
  intros s' ready. subst s' ready. unfold handle_compile_cobol. split.
  - destruct (truthy_opt (current_file s)); simpl.
    2: { eexists [_]. split; [done|]. right. split; [by intros [? _]|eauto]. }
    destruct (truthy (getSaveFileName a)); simpl.
    2: { exists []. split; [by rewrite app_nil_r|]. right.
         split; [by intros (_ & ? & _)|eauto]. }
    destruct (resolve_gnubase a) as [g|].
    2: { eexists [_]. split; [done|]. right.
         split; [by intros (_ & _ & [? ?])|eauto]. }
    destruct (run_result a) as [rc ? ?| |]; [destruct (rc =? 0)%Z|..];
      (eexists [Run _ _; MessageBox _]; split; [simpl; by rewrite <- app_assoc|];
       left; split; [by eauto|by eauto]).
  - by intros -> ->.
Qed.

(** X13. Compile works on the file, not on the editor: it commutes with any
    change of the editor. The text and the modified flag play no part in
    what is run and shown; a document with unsaved changes is compiled as
    it was last stored, without a prompt and without being saved. *)
Theorem X13_compile_ignores_the_editor (a : answers) (s : CobolIDE)
    (e : QPlainTextEdit) :
  handle_compile_cobol os a (set_editor e s) = set_editor e (handle_compile_cobol os a s).
Proof.
  unfold handle_compile_cobol. simpl.
  destruct (negb (truthy_opt _)); [done|].
  destruct (negb (truthy _)); [done|].
  destruct (resolve_gnubase a); [|done].
  by destruct (run_result a) as [rc ? ?| |]; [destruct (rc =? 0)%Z|..].
Qed.

(** ** What holds of the window whatever the user does *)

Lemma title_windowTitle s :
  windowTitle (_update_window_title os s) = title_of os (current_file s).
Proof.
  unfold _update_window_title, title_of.
  by destruct (current_file s) as [f|]; [destruct (truthy f)|].
Qed.

Lemma consistent_init : consistent os init.
Proof. split_and!; [by left|done|by right|constructor]. Qed.

(** A handler that keeps file name, editor and title keeps the window
    consistent when what it adds to the effects is well formed. *)
Lemma consistent_kept s s' more :
  current_file s' = current_file s → editor s' = editor s →
  windowTitle s' = windowTitle s → effects s' = effects s ++ more →
  Forall well_formed more →
  consistent os s → consistent os s'.
Proof.
  intros Hf He Ht Hx Hm (H1 & H2 & H3 & H4). unfold consistent.
  rewrite Hf, He, Ht, Hx. split_and!; [done..|]. by apply Forall_app.
Qed.

Lemma consistent_show d s : consistent os s → consistent os (show d s).
Proof.
  apply (consistent_kept s (show d s) [MessageBox d]); try done.
  by repeat constructor.
Qed.

Lemma consistent_user_edit content s :
  consistent os s → consistent os (user_edit content s).
Proof. intros (H1 & H2 & H3 & H4). by split_and!. Qed.

Lemma consistent_save_to_path a file_path s :
  truthy file_path = true →
  consistent os s → consistent os (_save_to_path os a file_path s).
Proof.
  intros Hp Hs. destruct (write_result a) as [e|] eqn:Hw.
  - destruct (_save_to_path_failed a file_path s e Hw) as (He & Hf & Ht & _ & Hx).
    apply (consistent_kept s _ (failed_write a file_path e)); try done.
    unfold failed_write. destruct (write_opened a); by repeat constructor.
  - destruct (_save_to_path_ok a file_path s Hw) as (He & Hf & Hx).
    destruct Hs as (H1 & H2 & H3 & H4). unfold consistent.
    rewrite Hf, Hx. split_and!.
    + by right.
    + done.
    + left. unfold _save_to_path. rewrite Hw.
      exact (title_windowTitle (set_current_file (Some file_path) _)).
    + apply Forall_app. split; [done|]. by repeat constructor.
Qed.

Lemma consistent_save_file_as a s :
  consistent os s → consistent os (handle_save_file_as os a s).
Proof.
  intros Hs. unfold handle_save_file_as.
  destruct (truthy (getSaveFileName a)) eqn:Hp; [by apply consistent_save_to_path|done].
Qed.

Lemma consistent_save_file a s :
  consistent os s → consistent os (handle_save_file os a s).
Proof.
  intros Hs. unfold handle_save_file.
  destruct (truthy_opt (current_file s)) eqn:Hf; simpl.
  - apply consistent_save_to_path; [|done]. by destruct (current_file s).
  - by apply consistent_save_file_as.
Qed.

Lemma consistent_prompt a message s :
  consistent os s → consistent os (_prompt_save_discard_cancel os a message s).2.
Proof.
  intros Hs. unfold _prompt_save_discard_cancel.
  destruct (reply a); simpl; [apply consistent_save_file|..]; by apply consistent_show.
Qed.

Lemma consistent_new_file s : consistent os s → consistent os (new_file os s).
Proof.
  intros (H1 & H2 & H3 & H4).
  destruct (new_file_session s) as (Hf & He & Hx). unfold consistent.
  rewrite Hf, He, Hx. split_and!; [by left|done| |done].
  left. exact (title_windowTitle (set_current_file None _)).
Qed.

Lemma consistent_open_dialog a s :
  consistent os s → consistent os (open_dialog os a s).
Proof.
  intros Hs. unfold open_dialog.
  destruct (truthy (getOpenFileName a)) eqn:Hp; [|done].
  destruct (read_result a) as [content|e] eqn:Hr.
  - destruct (_open_file_ok a (getOpenFileName a) s content Hr) as (He & Hf & Hx).
    destruct Hs as (H1 & H2 & H3 & H4). unfold consistent.
    rewrite Hf, Hx. split_and!; [by right|done| |done].
    left. unfold _open_file. rewrite Hr.
    exact (title_windowTitle (set_current_file (Some (getOpenFileName a)) _)).
  - unfold _open_file. rewrite Hr. by apply consistent_show.
Qed.

Lemma consistent_handle_new_file a s :
  consistent os s → consistent os (handle_new_file os a s).
Proof.
  intros Hs. unfold handle_new_file.
  destruct (_document_is_modified s); [|by apply consistent_new_file].
  pose proof (consistent_prompt a "Do you want to save before creating a new file?" s Hs)
    as Hp.
  destruct (_prompt_save_discard_cancel _ _ _ _) as [r s1].
  destruct (py_not r); [done|by apply consistent_new_file].
Qed.

Lemma consistent_handle_open_file a s :
  consistent os s → consistent os (handle_open_file os a s).
Proof.
  intros Hs. unfold handle_open_file.
  destruct (_document_is_modified s); [|by apply consistent_open_dialog].
  pose proof (consistent_prompt a "Do you want to save before opening a new file?" s Hs)
    as Hp.
  destruct (_prompt_save_discard_cancel _ _ _ _) as [r s1].
  destruct (py_not r); [done|by apply consistent_open_dialog].
Qed.

Lemma consistent_closeEvent a s :
  consistent os s → consistent os (closeEvent os a s).2.
Proof.
  intros Hs. unfold closeEvent.
  destruct (_document_is_modified s); [|done].
  pose proof (consistent_prompt a "Do you want to save your changes before exiting?" s Hs)
    as Hp.
  destruct (_prompt_save_discard_cancel _ _ _ _) as [r s1]. by destruct r.
Qed.

Lemma consistent_compile a s :
  consistent os s → consistent os (handle_compile_cobol os a s).
Proof.
  intros Hs. unfold handle_compile_cobol.
  destruct (truthy_opt (current_file s)) eqn:Hf; simpl; [|by apply consistent_show].
  destruct (truthy (getSaveFileName a)) eqn:Hp; simpl; [|done].
  destruct (resolve_gnubase a) as [g|]; [|by apply consistent_show].
  assert (well_formed (Run (compile_command os a g (getSaveFileName a)
                              (default "" (current_file s)))
                           (compile_env os a g))) as Hrun.
  { eexists _, _, _. split_and!; [done..|]. by destruct (current_file s). }
  destruct (run_result a) as [rc ? ?| |]; [destruct (rc =? 0)%Z|..];
    (eapply (consistent_kept s _ [Run _ _; MessageBox _]); [done..| | |done];
     [simpl; by rewrite <- app_assoc|by repeat constructor]).
Qed.

Lemma consistent_triggered act a s :
  consistent os s → consistent os (triggered os act a s).2.
Proof.
  intros Hs. destruct act; simpl.
  - by apply consistent_handle_new_file.
  - by apply consistent_handle_open_file.
  - by apply consistent_save_file.
  - by apply consistent_save_file_as.
  - by apply consistent_compile.
  - pose proof (consistent_closeEvent a s Hs) as Hc.
    by destruct (closeEvent os a s).
Qed.

Lemma consistent_user_undo clean s :
  consistent os s → clean_untitled clean s →
  consistent os (user_undo (clean_text clean s) s).
Proof.
  intros (H1 & H2 & H3 & H4) Hc. split_and!; [done| |done..].
  intros _ Hf. by apply Hc.
Qed.

(** How a handler leaves a window without a file name. *)
Lemma untitled_step_kept s s' :
  editor s' = editor s → current_file s' = current_file s → untitled_step s s'.
Proof. intros He Hf Hn. left. by rewrite <- Hf. Qed.

Lemma untitled_step_named s s' f : current_file s' = Some f → untitled_step s s'.
Proof. intros Hf Hn. congruence. Qed.

Lemma untitled_step_trans s1 s2 s3 :
  untitled_step s1 s2 → untitled_step s2 s3 → untitled_step s1 s3.
Proof.
  intros H12 H23 Hn. destruct (H23 Hn) as [[He Hf]|He]; [|by right].
  destruct (H12 Hf) as [[He' Hf']|He']; [left|right]; by rewrite He.
Qed.

Lemma untitled_step_save_to_path a file_path s :
  untitled_step s (_save_to_path os a file_path s).
Proof.
  destruct (write_result a) as [e|] eqn:Hw.
  - destruct (_save_to_path_failed a file_path s e Hw) as (He & Hf & _).
    by apply untitled_step_kept.
  - destruct (_save_to_path_ok a file_path s Hw) as (_ & Hf & _).
    by eapply untitled_step_named.
Qed.

Lemma untitled_step_save_file_as a s : untitled_step s (handle_save_file_as os a s).
Proof.
  unfold handle_save_file_as.
  destruct (truthy _); [apply untitled_step_save_to_path|by apply untitled_step_kept].
Qed.

Lemma untitled_step_save_file a s : untitled_step s (handle_save_file os a s).
Proof.
  unfold handle_save_file.
  destruct (negb _); [apply untitled_step_save_file_as|apply untitled_step_save_to_path].
Qed.

Lemma untitled_step_prompt a message s :
  untitled_step s (_prompt_save_discard_cancel os a message s).2.
Proof.
  unfold _prompt_save_discard_cancel.
  destruct (reply a); simpl; [|by apply untitled_step_kept..].
  apply (untitled_step_trans _ (show (warning "Unsaved Changes" message) s));
    [by apply untitled_step_kept|apply untitled_step_save_file].
Qed.

Lemma untitled_step_new_file s : untitled_step s (new_file os s).
Proof. intros _. right. by destruct (new_file_session s) as (_ & -> & _). Qed.

Lemma untitled_step_open_dialog a s : untitled_step s (open_dialog os a s).
Proof.
  unfold open_dialog. destruct (truthy _); [|by apply untitled_step_kept].
  destruct (read_result a) as [content|e] eqn:Hr.
  - destruct (_open_file_ok a (getOpenFileName a) s content Hr) as (_ & Hf & _).
    by eapply untitled_step_named.
  - unfold _open_file. rewrite Hr. by apply untitled_step_kept.
Qed.

Lemma untitled_step_triggered act a s : untitled_step s (triggered os act a s).2.
Proof.
  destruct act; simpl.
  - unfold handle_new_file. destruct (_document_is_modified s);
      [|apply untitled_step_new_file].
    pose proof (untitled_step_prompt a
                  "Do you want to save before creating a new file?" s) as Hp.
    destruct (_prompt_save_discard_cancel _ _ _ _) as [r s1].
    destruct (py_not r); [done|].
    eapply untitled_step_trans; [exact Hp|apply untitled_step_new_file].
  - unfold handle_open_file. destruct (_document_is_modified s);
      [|apply untitled_step_open_dialog].
    pose proof (untitled_step_prompt a
                  "Do you want to save before opening a new file?" s) as Hp.
    destruct (_prompt_save_discard_cancel _ _ _ _) as [r s1].
    destruct (py_not r); [done|].
    eapply untitled_step_trans; [exact Hp|apply untitled_step_open_dialog].
  - apply untitled_step_save_file.
  - apply untitled_step_save_file_as.
  - apply untitled_step_kept.
    + unfold handle_compile_cobol.
      destruct (negb _); [done|]. destruct (negb _); [done|].
      destruct (resolve_gnubase a); [|done].
      by destruct (run_result a) as [rc ? ?| |]; [destruct (rc =? 0)%Z|..].
    + unfold handle_compile_cobol.
      destruct (negb _); [done|]. destruct (negb _); [done|].
      destruct (resolve_gnubase a); [|done].
      by destruct (run_result a) as [rc ? ?| |]; [destruct (rc =? 0)%Z|..].
  - unfold closeEvent. destruct (_document_is_modified s);
      [|by apply untitled_step_kept].
    pose proof (untitled_step_prompt a
                  "Do you want to save your changes before exiting?" s) as Hp.
    destruct (_prompt_save_discard_cancel _ _ _ _) as [r s1]. by destruct r.
Qed.

(** The unmodified state behind a window without a file name stays the
    empty one. *)
Lemma clean_untitled_step clean s s' :
  untitled_step s s' → clean_untitled clean s →
  clean_untitled (clean_text clean s) s'.
Proof.
  intros Hstep Hc Hn. unfold clean_text at 1.
  destruct (Hstep Hn) as [[He Hf]|He]; [|by rewrite He].
  specialize (Hc Hf). unfold clean_text in *. rewrite He.
  by destruct (isModified (editor s)).
Qed.

Lemma clean_untitled_user_edit clean content s :
  clean_untitled clean s → clean_untitled (clean_text clean s) (user_edit content s).
Proof. intros Hc Hn. by apply Hc. Qed.

Lemma clean_untitled_user_undo clean s :
  clean_untitled clean s →
  clean_untitled (clean_text clean s) (user_undo (clean_text clean s) s).
Proof. intros Hc Hn. by apply Hc. Qed.

(** What every event keeps of the window and of the unmodified state of its
    document. *)
Lemma run_from_invariant events clean s :
  consistent os s → clean_untitled clean s →
  consistent os (run_from os clean events s)
  ∧ ∃ clean', clean_untitled clean' (run_from os clean events s).
Proof.
  revert clean s.
  induction events as [|[content| |act a] events IH]; intros clean s Hs Hc; simpl.
  - eauto.
  - apply IH; [by apply consistent_user_edit|by apply clean_untitled_user_edit].
  - apply IH; [by apply consistent_user_undo|by apply clean_untitled_user_undo].
  - pose proof (consistent_triggered act a s Hs) as Ht.
    pose proof (clean_untitled_step clean s _ (untitled_step_triggered act a s) Hc)
      as Hc'.
    destruct (triggered os act a s) as [[] s1]; [by apply IH|eauto].
Qed.

Lemma run_invariant events :
  consistent os (run os events init)
  ∧ ∃ clean', clean_untitled clean' (run os events init).
Proof. apply run_from_invariant; [apply consistent_init|done]. Qed.

(** X14. Whatever the user does from the start of the program, every file
    is written, or opened for writing, under a non-empty name, and every
    run of the compiler has the command line [cobc -x -o exe source] with a
    non-empty output path and a non-empty source path. *)
Theorem X14_files_and_commands_are_well_formed (events : list event) :
  ∀ e, e ∈ effects (run os events init) →
    match e with
    | MessageBox _ => True
    | Written path _ => path ≠ ""
    | Truncated path => path ≠ ""
    | Run argv _ => ∃ cobc exe source, argv = [cobc; "-x"; "-o"; exe; source]
                                       ∧ exe ≠ "" ∧ source ≠ ""
    end.
Proof.
  intros e He.
  destruct (run_invariant events) as ((_ & _ & _ & Hx) & _).
  rewrite Forall_forall in Hx. specialize (Hx e He).
  assert (∀ x, truthy x = true → x ≠ "") as Ht.
  { intros x Hx' ->. done. }
  destruct e as [d|path c|path|argv env]; [done|by apply Ht|by apply Ht|].
  destruct Hx as (cobc & exe & source & -> & H1 & H2). eexists _, _, _. eauto.
Qed.

(** X15. Whatever the user does from the start of the program, the title of
    the window follows the file name: it is the base title with the base
    name of the current file, or with [Untitled] when there is none; until
    the first file is made, opened or saved it is the bare base title. The
    file name is never the empty text. *)
Theorem X15_title_follows_the_file_name (events : list event) :
  let s := run os events init in
  match current_file s with
  | Some f => f ≠ "" ∧ windowTitle s = "GNU Cobol IDE - " +:+ basename os f
  | None => windowTitle s = "GNU Cobol IDE - Untitled" ∨ windowTitle s = "GNU Cobol IDE"
  end.
Proof.
  intros s.
  destruct (run_invariant events) as ((H1 & _ & H3 & _) & _).
  fold s in H1, H3. unfold title_of in H3.
  destruct (current_file s) as [f|].
  - destruct H1 as [?|H1]; [done|]. simpl in H1. rewrite H1 in H3.
    split; [by intros ->|]. by destruct H3 as [?|[_ ?]].
  - destruct H3 as [?|[? _]]; auto.
Qed.

(** X16. Whatever the user does from the start of the program (edits, undo
    back to the unmodified state, actions of the menu), a document that has
    no file name and is not flagged as modified is empty: the unmodified
    state of a document without a file name is the empty one, so that a
    text that is stored nowhere is flagged, and closing its window shows the
    unsaved-changes box first. *)
Theorem X16_unflagged_text_has_a_file (events : list event) :
  let s := run os events init in
  toPlainText (editor s) ≠ "" → current_file s = None →
  _document_is_modified s = true
  ∧ (∀ a, ∃ more, effects (closeEvent os a s).2
                  = effects s ++ MessageBox (unsaved_box
                      "Do you want to save your changes before exiting?") :: more).
Proof.
  intros s Ht Hf.
  destruct (run_invariant events) as (_ & clean & Hc).
  fold s in Hc. specialize (Hc Hf). unfold clean_text in Hc.
  unfold _document_is_modified.
  destruct (isModified (editor s)) eqn:Hm; [|done].
  split; [done|]. intros a. unfold closeEvent, _prompt_save_discard_cancel,
    _document_is_modified. rewrite Hm.
  destruct (reply a); cbv beta iota zeta; simpl; [|by exists []..].
  destruct (handle_save_file_effects a (show (warning "Unsaved Changes"
    "Do you want to save your changes before exiting?") s)) as [more ->].
  exists more. simpl. by rewrite <- app_assoc.
Qed.

End HandlerFacts.

(** ** The compile handler on a POSIX platform *)


(** C6 on the window as it is created. *)
Lemma C6_witness :
  current_file init = None
  ∧ handle_compile_cobol posix (linux_answers ∅ (Completed 0 "" "")) init =
      show no_source_box init.
Proof.
  split; [done|].
  by destruct (C6_no_source_file_no_compile posix (linux_answers ∅ (Completed 0 "" "")) init
                 eq_refl) as [H _].
Defined.

(** C7, as amended, with no [GNUBASE] in the environment on Linux. *)
Lemma C7_witness :
  let a := linux_answers {["PATH" := "/usr/bin"]} (Completed 0 "" "") in
  current_file saved_session = Some "/tmp/a.cbl"
  ∧ truthy "/tmp/a.cbl" = true
  ∧ getSaveFileName a = "/tmp/a.out"
  ∧ truthy "/tmp/a.out" = true
  ∧ resolve_gnubase a = Some "/usr/local"
  ∧ ∃ env d,
      effects (handle_compile_cobol posix a saved_session) =
        [Run ["/usr/local/bin/cobc"; "-x"; "-o"; "/tmp/a.out"; "/tmp/a.cbl"] env; MessageBox d]
      ∧ env !! "COBPATH" = Some "/usr/local/lib/gnucobol:/usr/local/lib/cobc:"
      ∧ env !! "PATH" = Some "/usr/local/bin:/usr/bin".
Proof.
  intros a. split_and!; [done..|].
  destruct (C7_toolchain_resolution_and_invocation posix a saved_session
              "/tmp/a.cbl" "/tmp/a.out" eq_refl eq_refl eq_refl eq_refl)
    as (_ & _ & _ & H).
  destruct (H "/usr/local" eq_refl) as (env & d & H1 & _ & _ & H2 & H3 & _).
  by exists env, d.
Defined.

(** C7 as the specification states it fails when [GNUBASE] is present in the
    environment with an empty value: the override is there, yet the root is
    the default of the platform. *)
Lemma C7_counterexample :
  let a := linux_answers {["GNUBASE" := ""]} (Completed 0 "" "") in
  environ a !! "GNUBASE" = Some ""
  ∧ resolve_gnubase a = Some "/usr/local"
  ∧ "/usr/local" ≠ ""
  ∧ ∃ env,
      effects (handle_compile_cobol posix a saved_session) =
        [Run ["/usr/local/bin/cobc"; "-x"; "-o"; "/tmp/a.out"; "/tmp/a.cbl"] env;
         MessageBox success_box]
      ∧ env !! "GNUBASE" = Some "/usr/local".
Proof.
  intros a. split_and!; [done..|].
  eexists. split; [reflexivity|]. done.
Qed.

(** ** The session handlers on a POSIX platform *)

(** C8 on a session edited after it was saved: saving clears the flag the
    edit had set, opening another file leaves it cleared, a further edit
    sets it and undoing back to the saved text clears it. *)
Lemma C8_witness :
  let a := linux_answers ∅ (Completed 0 "" "") in
  _document_is_modified dirty_session = true
  ∧ write_result a = None
  ∧ current_file dirty_session = Some "/tmp/a.cbl"
  ∧ truthy "/tmp/a.cbl" = true
  ∧ _document_is_modified (handle_save_file posix a dirty_session) = false
  ∧ read_result a = inl ""
  ∧ _document_is_modified (_open_file posix a "/tmp/b.cbl" dirty_session) = false
  ∧ _document_is_modified (user_edit "MOVE 3 TO X." saved_session) = true
  ∧ _document_is_modified (user_undo "MOVE 1 TO X." dirty_session) = false.
Proof.
  intros a.
  destruct (C8_dirty_flag posix a dirty_session "/tmp/a.cbl")
    as (_ & _ & Hs & Hh & _ & _ & Hu & _).
  destruct (C8_dirty_flag posix a dirty_session "/tmp/b.cbl") as (Ho & _).
  destruct (C8_dirty_flag posix a saved_session "/tmp/a.cbl")
    as (_ & _ & _ & _ & _ & Hed & _).
  split_and!; [done..| |done| | |].
  - rewrite (Hh eq_refl eq_refl). by destruct (Hs eq_refl) as [-> _].
  - by destruct (Ho "" eq_refl) as [-> _].
  - by destruct (Hed "MOVE 3 TO X.") as [-> _].
  - by destruct (Hu "MOVE 1 TO X.") as [-> _].
Defined.

(** C8 as stated fails: a change of the content that leaves the flag clear.
    A file is opened, its text is edited and the edit is undone: the undo
    changes the content of the editor, from the edited text back to the
    text read, and the document is not flagged as modified after it. *)
Lemma C8_counterexample :
  let opened := Triggered action_open
                  (sample_answers Cancel "" "/tmp/a.cbl" (inl "MOVE 1 TO X.") None) in
  let s := run posix [opened; Edit "MOVE 2 TO X."] init in
  let s' := run posix [opened; Edit "MOVE 2 TO X."; Undo] init in
  toPlainText (editor s) = "MOVE 2 TO X."
  ∧ _document_is_modified s = true
  ∧ toPlainText (editor s') = "MOVE 1 TO X."
  ∧ _document_is_modified s' = false.
Proof. by split_and!. Defined.

(** C9 at the failing input: a document with unsaved changes, New, the box
    answered with Save, and the write to the current file raising after the
    file was opened. The unsaved text is neither in the editor nor in the
    file, and the document is not flagged as modified. *)
Lemma C9_witness :
  let a := sample_answers Save "" "" (inl "") (Some "No space left on device") in
  let s' := handle_new_file posix a dirty_session in
  _document_is_modified dirty_session = true
  ∧ toPlainText (editor dirty_session) = "MOVE 2 TO X."
  ∧ reply a = Save
  ∧ write_result a = Some "No space left on device"
  ∧ editor s' = {| toPlainText := ""; isModified := false |}
  ∧ current_file s' = None
  ∧ effects s'
    = [MessageBox (unsaved_box "Do you want to save before creating a new file?");
       Truncated "/tmp/a.cbl";
       MessageBox (save_error_box "No space left on device")].
Proof.
  intros a s'.
  destruct (C9_new_file_after_unsuccessful_save posix a dirty_session eq_refl eq_refl)
    as (He & Hf & _); [by left|].
  split_and!; [done..|exact He|exact Hf|done].
Defined.

(** ** The further properties on sample sessions *)


(** X5 on a new document saved as [/tmp/b.cbl], edited and saved. *)
Lemma X5_witness :
  let a1 := sample_answers Cancel "/tmp/b.cbl" "" (inl "") None in
  let a2 := sample_answers Cancel "/tmp/other.cbl" "" (inl "") None in
  let s2 := handle_save_file posix a2
              (user_edit "GOBACK." (handle_save_file_as posix a1 untitled_session)) in
  write_result a1 = None ∧ truthy (getSaveFileName a1) = true ∧ write_result a2 = None
  ∧ current_file s2 = Some "/tmp/b.cbl"
  ∧ editor s2 = {| toPlainText := "GOBACK."; isModified := false |}
  ∧ effects s2 = [Written "/tmp/b.cbl" "STOP RUN."; Written "/tmp/b.cbl" "GOBACK."].
Proof.
  intros a1 a2 s2.
  destruct (X5_save_after_save_as posix a1 a2 untitled_session "GOBACK."
              eq_refl eq_refl eq_refl) as (_ & _ & Hf & He & Hx).
  split_and!; [done..|exact Hf|exact He|exact Hx].
Defined.

(** X7 on a document with unsaved changes: the box answered with Cancel,
    and answered with Save while the write raises; and on a saved
    document. *)
Lemma X7_witness :
  let a := sample_answers Cancel "" "" (inl "") None in
  let b := sample_answers Save "" "" (inl "") (Some "No space left on device") in
  _document_is_modified dirty_session = true ∧ reply a = Cancel
  ∧ (closeEvent posix a dirty_session).1 = false
  ∧ _document_is_modified saved_session = false
  ∧ (closeEvent posix a saved_session).2 = saved_session
  ∧ reply b = Save ∧ write_result b = Some "No space left on device"
  ∧ (closeEvent posix b dirty_session).1 = true
  ∧ _document_is_modified (closeEvent posix b dirty_session).2 = true
  ∧ effects (closeEvent posix b dirty_session).2
    = [MessageBox (unsaved_box "Do you want to save your changes before exiting?");
       Truncated "/tmp/a.cbl";
       MessageBox (save_error_box "No space left on device")].
Proof.
  intros a b.
  destruct (X7_close_event posix a dirty_session) as (Hi & _).
  destruct (X7_close_event posix a saved_session) as (_ & Hc & _).
  destruct (X7_close_event posix b dirty_session) as (_ & _ & _ & _ & Hs).
  destruct (Hs "No space left on device" eq_refl eq_refl eq_refl) as (H1 & _ & H2 & _).
  split_and!; [done|done|by apply Hi|done|by apply Hc|done|done|exact H1|exact H2|done].
Defined.

(** X8 on a document with unsaved changes, the box answered with Discard. *)
Lemma X8_witness :
  let a := sample_answers Discard "" "/tmp/c.cbl" (inl "GOBACK.") None in
  _document_is_modified dirty_session = true ∧ reply a = Discard
  ∧ editor (handle_new_file posix a dirty_session)
    = {| toPlainText := "MOVE 2 TO X."; isModified := true |}
  ∧ editor (handle_open_file posix a dirty_session)
    = {| toPlainText := "MOVE 2 TO X."; isModified := true |}
  ∧ current_file (handle_open_file posix a dirty_session) = Some "/tmp/a.cbl".
Proof.
  intros a.
  destruct (X8_discard_abandons_new_and_open posix a dirty_session eq_refl)
    as (Hn & Ho); [done|].
  split_and!; [done|done|by rewrite Hn|by rewrite Ho|by rewrite Ho].
Defined.

(** X9 on a document with unsaved changes, the box answered with Save, the
    write raising, and another file picked and read. *)
Lemma X9_witness :
  let a := sample_answers Save "" "/tmp/c.cbl" (inl "GOBACK.")
             (Some "No space left on device") in
  let s' := handle_open_file posix a dirty_session in
  _document_is_modified dirty_session = true ∧ reply a = Save
  ∧ write_result a = Some "No space left on device"
  ∧ truthy (getOpenFileName a) = true ∧ read_result a = inl "GOBACK."
  ∧ _document_is_modified s' = false
  ∧ current_file s' = Some "/tmp/c.cbl"
  ∧ effects s'
    = [MessageBox (unsaved_box "Do you want to save before opening a new file?");
       Truncated "/tmp/a.cbl";
       MessageBox (save_error_box "No space left on device")].
Proof.
  intros a s'.
  destruct (X9_open_goes_on_after_unsuccessful_save posix a dirty_session "GOBACK."
              eq_refl eq_refl) as (Hm & Hf & _); [by left|done|done|].
  split_and!; [done..|exact Hm|exact Hf|done].
Defined.

(** X10 on a saved document, reading the file picked raises. *)
Lemma X10_witness :
  let a := sample_answers Cancel "" "/tmp/c.cbl" (inr "No such file") None in
  read_result a = inr "No such file"
  ∧ toPlainText (editor (handle_open_file posix a dirty_session)) = "MOVE 2 TO X."
  ∧ _document_is_modified saved_session = false
  ∧ truthy (getOpenFileName a) = true
  ∧ handle_open_file posix a saved_session
    = show (critical "Error" ("Could not open file:" +:+ nl +:+ "No such file"))
        saved_session.
Proof.
  intros a.
  destruct (X10_open_without_read_keeps_text posix a dirty_session) as (Ht & _).
  { right. by exists "No such file". }
  destruct (X10_open_without_read_keeps_text posix a saved_session) as (_ & Hs).
  { right. by exists "No such file". }
  destruct (Hs eq_refl) as (_ & Hr).
  split_and!; [done|by rewrite Ht|done|done|by apply Hr].
Defined.

(** X11 on a document with unsaved changes saved as [/tmp/b.cbl] and opened
    again. *)
Lemma X11_witness :
  let a1 := sample_answers Cancel "/tmp/b.cbl" "" (inl "") None in
  let a2 := sample_answers Cancel "" "/tmp/b.cbl" (inl "MOVE 2 TO X.") None in
  let s2 := handle_open_file posix a2 (handle_save_file_as posix a1 dirty_session) in
  write_result a1 = None ∧ truthy (getSaveFileName a1) = true
  ∧ getOpenFileName a2 = getSaveFileName a1
  ∧ read_result a2 = inl (toPlainText (editor dirty_session))
  ∧ toPlainText (editor s2) = "MOVE 2 TO X."
  ∧ windowTitle s2 = "GNU Cobol IDE - b.cbl"
  ∧ effects s2 = [Written "/tmp/b.cbl" "MOVE 2 TO X."].
Proof.
  intros a1 a2 s2.
  destruct (X11_save_then_open_again posix a1 a2 dirty_session
              eq_refl eq_refl eq_refl eq_refl) as (_ & _ & Ht & Hx & He).
  subst s2. split_and!; [done..|by rewrite He|by rewrite Ht|by rewrite Hx].
Defined.

(** X12 on a saved document: the output dialog dismissed, and an output
    path picked. *)
Lemma X12_witness :
  let a := sample_answers Cancel "" "" (inl "") None in
  truthy_opt (current_file saved_session) = true ∧ getSaveFileName a = ""
  ∧ handle_compile_cobol posix a saved_session = saved_session.
Proof.
  intros a.
  destruct (X12_compile_runs_exactly_when_ready posix a saved_session) as (_ & Hd).
  split_and!; [done|done|by apply Hd].
Defined.

(** X14 on a new document that is typed in, saved as [/tmp/b.cbl] and
    compiled to [/tmp/b]. *)
Lemma X14_witness :
  let save := sample_answers Cancel "/tmp/b.cbl" "" (inl "") None in
  let compile := sample_answers Cancel "/tmp/b" "" (inl "") None in
  let events := [Edit "STOP RUN."; Triggered action_save save;
                 Triggered action_compile compile] in
  let command := ["/usr/local/bin/cobc"; "-x"; "-o"; "/tmp/b"; "/tmp/b.cbl"] in
  effects (run posix events init)
  = [Written "/tmp/b.cbl" "STOP RUN.";
     Run command (compile_env posix compile "/usr/local");
     MessageBox success_box]
  ∧ ∃ cobc exe source, command = [cobc; "-x"; "-o"; exe; source]
                       ∧ exe ≠ "" ∧ source ≠ "".
Proof.
  intros save compile events command.
  assert (effects (run posix events init)
          = [Written "/tmp/b.cbl" "STOP RUN.";
             Run command (compile_env posix compile "/usr/local");
             MessageBox success_box]) as Hx by reflexivity.
  split; [exact Hx|].
  apply (X14_files_and_commands_are_well_formed posix events
           (Run command (compile_env posix compile "/usr/local"))).
  rewrite Hx. apply list_elem_of_further, list_elem_of_here.
Defined.

(** X16 after text was typed into the new document, undone and typed
    again. *)
Lemma X16_witness :
  let s := run posix [Edit "STOP RUN."; Undo; Edit "GOBACK."] init in
  toPlainText (editor s) = "GOBACK." ∧ current_file s = None
  ∧ _document_is_modified s = true.
Proof.
  intros s.
  destruct (X16_unflagged_text_has_a_file posix [Edit "STOP RUN."; Undo; Edit "GOBACK."])
    as (Hm & _); [done|done|].
  by split_and!.
Defined.

End IDEFacts.
